(** * Image-to-PDF Telegram bot: sessions, ingestion and PDF assembly

    A shallow embedding of the bot's handlers.  Two variants of the bot are
    embedded, each in a module of its own:

    - [Index]   for [src/index.js]  (bare JPEG buffers in the session, hourly
                cleanup of the session table, 50 MiB document limit);
    - [Part001] for [src/unnamed/part_001] (records with pixel dimensions in
                the session, 45 MiB document limit).

    [src/unnamed/part_000] is an earlier copy of the bot that does not parse
    (its /start reply has an unterminated string); it is not embedded.

    Telegram, node-fetch/axios, sharp and PDFKit are external collaborators:
    what they answer is a field of [Env], and every call to them is recorded
    in the trace of the handler.  A handler is a function from the session it
    was given to the session it leaves behind and the trace of its effects.

    A handler function describes one run of the handler with no other
    handler and no cleanup in between, so that [ctx.session] is the entry
    of the session table all along.  Runs do overlap in the bot, since a
    handler is suspended at each [await]: [processImage] is therefore also
    given in two stretches, before its first [await] and after its last,
    and the tables the bot can hold ([Index.reachable]) include what
    overlapping runs leave behind.

    When PDFKit hands a chunk to the 'data' listener depends on the
    variant.  In index.js the handler awaits sharp before every image: the
    stream of the document flows from the first of these awaits on, and a
    chunk that PDFKit writes from then on reaches the listener inside the
    call that produced it, so that what the listener throws is caught by
    the [try] around that call (the few bytes of the header, written by
    the constructor, are handed over at that first await; here they come
    first, like any other chunk).  In part_001 nothing is awaited between
    [new PDFDocument] and [pdfDoc.end()]: the stream keeps every chunk and
    hands them to the listener afterwards, from a tick of its own, while
    the handler awaits the promise; what the listener throws there is
    caught by no [try]. *)

From Stdlib Require Import ZArith QArith Lia.
From Stdlib Require Import Ascii String.
From stdpp Require Import base option list gmap.

Local Close Scope Q_scope.
Local Open Scope Z_scope.

(** ** Buffers *)

(** A Node.js [Buffer]: a byte string, kept as runs of equal bytes, [(n, b)]
    standing for [n] bytes [b], so that a buffer of tens of megabytes is a
    small term.  The handlers never look inside one; they read [.length] and
    call [Buffer.concat]. *)
Record Buffer := mkBuffer { runs : list (N * Byte.byte) }.

(** [b.length] *)
Definition Buffer_length (b : Buffer) : Z :=
  Z.of_N (foldr (fun run acc => (run.1 + acc)%N) 0%N (runs b)).

(** [Buffer.alloc(n, fill)] *)
Definition Buffer_alloc (n : N) (fill : Byte.byte) : Buffer := mkBuffer [(n, fill)].

(** [Buffer.concat(list)] *)
Definition Buffer_concat (l : list Buffer) : Buffer :=
  mkBuffer (concat (map runs l)).

(** sum of the [.length] of a list of chunks *)
Definition chunks_length (l : list Buffer) : Z :=
  foldr (fun c acc => Buffer_length c + acc) 0 l.

(** ** Errors, replies and the trace of effects *)

(** What a [throw] inside a handler carries. *)
Inductive Error :=
| FetchFailed          (* getFileLink / fetch / axios.get rejected *)
| DecodeFailed         (* sharp rejected the bytes *)
| SizeLimitExceeded    (* thrown by the 'data' listener *)
| SendFailed           (* an awaited Telegram call rejected *)
| WriterFault.         (* PDFKit used without a current page *)

(** The replies of the bot, one constructor per kind; the wording quoted is
    that of index.js, part_001 words some of them differently. *)
Inductive Message :=
| MsgStart
| MsgHelp
| MsgCleared                         (* /cancel *)
| MsgMaxImages (max : Z)             (* "Maximum ${max} images ... reached" *)
| MsgProcessing                      (* "Processing image..." *)
| MsgImageAdded (count max : Z)      (* "Image added (${count}/${max})" *)
| MsgProcessFailed                   (* "Failed to process image" *)
| MsgJpegPngOnly                     (* "Please send JPEG or PNG images only." *)
| MsgNoImages                        (* "No images to convert" *)
| MsgCreatingPdf                     (* "Creating PDF..." *)
| MsgPdfFailed (e : Error)           (* "Failed to create PDF: ${error.message}" *)
| MsgBotError.                       (* bot.catch *)

Definition FileId := string.

(** the [filename] of the document sent back *)
Inductive Filename :=
| ImagesPdf                          (* 'images.pdf' *)
| ImagesStampedPdf (now : Z).        (* `images_${Date.now()}.pdf` *)

Inductive Event :=
| EReply (m : Message)               (* ctx.reply(m) *)
| EFetch (file : option FileId)      (* getFileLink(file.file_id), then the download *)
| EDecode (b : Buffer)               (* sharp(b)... *)
| EData (chunk : Buffer)             (* PDFKit delivered a 'data' chunk *)
| ESendDocument (pdf : Buffer) (name : Filename) (caption : option Z)
| EUncaught (e : Error).             (* thrown outside every try: Node's
                                        'uncaughtException'; the handler it
                                        came from is never resumed *)

Definition Trace := list Event.

(** ** The handler monad: a result or a thrown error, and the effects so far *)

Inductive Result (A : Type) :=
| Ok (a : A)
| Throw (e : Error).
Arguments Ok {A} a.
Arguments Throw {A} e.

Definition M (A : Type) : Type := (Result A * Trace)%type.

Definition ret {A} (a : A) : M A := (Ok a, []).
Definition throw {A} (e : Error) : M A := (Throw e, []).
Definition emit (ev : Event) : M unit := (Ok tt, [ev]).

Definition bind {A B} (m : M A) (f : A -> M B) : M B :=
  match m with
  | (Ok a, t) => let '(r, t') := f a in (r, t ++ t')
  | (Throw e, t) => (Throw e, t)
  end.

(** [try { m } catch (e) { h e }] *)
Definition try_catch {A} (m : M A) (h : Error -> M A) : M A :=
  match m with
  | (Ok a, t) => (Ok a, t)
  | (Throw e, t) => let '(r, t') := h e in (r, t ++ t')
  end.

(** an external call that either answers or rejects *)
Definition call {A} (ev : Event) (answer : option A) (e : Error) : M A :=
  (match answer with Some a => Ok a | None => Throw e end, [ev]).

#[global] Instance M_ret : MRet M := @ret.
#[global] Instance M_bind : MBind M := fun A B f m => bind m f.

(** A handler that lets an error escape is caught by [bot.catch], which
    replies with a generic message; the session stays as the handler was
    given it. *)
Definition handled {S} (s : S) (m : M S) : S * Trace :=
  match m with
  | (Ok s', t) => (s', t)
  | (Throw _, t) => (s, t ++ [EReply MsgBotError])
  end.

(** ** PDFKit documents *)

(** The options of [pdfDoc.image]. *)
Inductive ImageOptions :=
| OptFit (w h : Z)                    (* { fit: [w, h], align: 'center', valign: 'center' } *)
| OptAt (x y : Z) (width height : Q). (* x, y, { width, height } *)

Record PlacedImage := mkPlaced { img_data : Buffer; img_opts : ImageOptions }.

(** A page: [page_size = None] is PDFKit's default size. *)
Record Page := mkPage { page_size : option (Q * Q); page_content : list PlacedImage }.

(** The pages of a document in order; the last one is the current page. *)
Definition Doc := list Page.

Definition doc_new (autoFirstPage : bool) : Doc :=
  if autoFirstPage then [mkPage None []] else [].

Definition doc_addPage (size : option (Q * Q)) (d : Doc) : Doc :=
  d ++ [mkPage size []].

(** draw on the current page; there is none in a document without pages *)
Fixpoint doc_image (pi : PlacedImage) (d : Doc) : option Doc :=
  match d with
  | [] => None
  | [p] => Some [mkPage (page_size p) (page_content p ++ [pi])]
  | p :: rest => cons p <$> doc_image pi rest
  end.

(** ** The collaborators *)

Record Env := mkEnv {
  (* ctx.telegram.getFileLink(id) and the download of the link; [None]
     when either rejects *)
  fetchFile : FileId -> option Buffer;
  (* sharp(b).rotate().jpeg({ quality: 90 }).toBuffer() *)
  sharp_jpeg : Buffer -> option Buffer;
  (* sharp(b).toBuffer() *)
  sharp_toBuffer : Buffer -> option Buffer;
  (* sharp(b).metadata(): width and height *)
  sharp_metadata : Buffer -> option (Z * Z);
  (* the chunks PDFKit hands to the 'data' listener: for the document
     header, for an image drawn on a document, for a page added to a
     document, and when the document is ended *)
  pdf_header_chunks : bool -> list Buffer;
  pdf_image_chunks : Doc -> PlacedImage -> list Buffer;
  pdf_page_chunks : Doc -> option (Q * Q) -> list Buffer;
  pdf_end_chunks : Doc -> list Buffer;
  (* does ctx.replyWithDocument resolve for this payload? *)
  replyWithDocument_ok : Buffer -> bool;
  (* does an awaited ctx.reply resolve? *)
  reply_ok : Message -> bool
}.

(** ** The 'data' listener and the writer calls that feed it *)

(** [buffers] and [totalSize] (called [pdfSize] in part_001) *)
Record Sink := mkSink { buffers : list Buffer; totalSize : Z }.

Definition Listener := Buffer -> Sink -> M Sink.

(** [(chunk) => { buffers.push(chunk); totalSize += chunk.length;
                  if (totalSize > limit) throw new Error(...) }] *)
Definition data_listener (limit : Z) : Listener := fun chunk k =>
  emit (EData chunk) ;;
  let k' := mkSink (buffers k ++ [chunk]) (totalSize k + Buffer_length chunk) in
  if limit <? totalSize k' then throw SizeLimitExceeded else ret k'.

(** Chunks reach the listener in order; a throw in the listener unwinds
    through the call that delivered the chunk, and the chunks after it are
    not delivered. *)
Fixpoint deliver (on_data : Listener) (chunks : list Buffer) (k : Sink) : M Sink :=
  match chunks with
  | [] => ret k
  | c :: cs => k' ← on_data c k; deliver on_data cs k'
  end.

(** A stream that does not flow yet: what PDFKit pushes is kept in the
    stream ([buffers] is then the stream's own queue, [totalSize] its
    length), no 'data' event is emitted, no listener runs. *)
Definition kept : Listener := fun chunk k =>
  ret (mkSink (buffers k ++ [chunk]) (totalSize k + Buffer_length chunk)).

(** a PDFDocument with its listener's variables *)
Record Pdf := mkPdf { pdf_doc : Doc; pdf_sink : Sink }.

Section Writer.
Variable E : Env.
Variable on_data : Listener.

(** [new PDFDocument({ autoFirstPage })] followed by [.on('data', on_data)] *)
Definition PDFDocument (autoFirstPage : bool) : M Pdf :=
  k ← deliver on_data (pdf_header_chunks E autoFirstPage) (mkSink [] 0);
  ret (mkPdf (doc_new autoFirstPage) k).

Definition pdfDoc_addPage (size : option (Q * Q)) (p : Pdf) : M Pdf :=
  k ← deliver on_data (pdf_page_chunks E (pdf_doc p) size) (pdf_sink p);
  ret (mkPdf (doc_addPage size (pdf_doc p)) k).

Definition pdfDoc_image (data : Buffer) (opts : ImageOptions) (p : Pdf) : M Pdf :=
  match doc_image (mkPlaced data opts) (pdf_doc p) with
  | None => throw WriterFault
  | Some d =>
      k ← deliver on_data (pdf_image_chunks E (pdf_doc p) (mkPlaced data opts)) (pdf_sink p);
      ret (mkPdf d k)
  end.

(** [pdfDoc.end()], up to the 'end' event *)
Definition pdfDoc_end (p : Pdf) : M Pdf :=
  k ← deliver on_data (pdf_end_chunks E (pdf_doc p)) (pdf_sink p);
  ret (mkPdf (pdf_doc p) k).
End Writer.

(** [Buffer.concat(buffers)], next to the pages written *)
Definition collect (p : Pdf) : Buffer * Doc :=
  (Buffer_concat (buffers (pdf_sink p)), pdf_doc p).

(** [await ctx.replyWithDocument({ source, filename }, { caption })] *)
Definition replyWithDocument (E : Env) (pdf : Buffer) (name : Filename)
    (caption : option Z) : M unit :=
  call (ESendDocument pdf name caption)
       (if replyWithDocument_ok E pdf then Some tt else None) SendFailed.

(** [ctx.reply(m)], not awaited: its rejection never reaches the handler *)
Definition reply (m : Message) : M unit := emit (EReply m).

(** [await ctx.reply(m)] *)
Definition await_reply (E : Env) (m : Message) : M unit :=
  call (EReply m) (if reply_ok E m then Some tt else None) SendFailed.

(** [getFileLink(file.file_id)] and the download; reading [file_id] off a
    missing file object throws as well *)
Definition fetch (E : Env) (file : option FileId) : M Buffer :=
  call (EFetch file) (file ≫= fetchFile E) FetchFailed.

(** [await sharp(b)...]: one decoding of [b] *)
Definition sharp {A} (f : Buffer -> option A) (b : Buffer) : M A :=
  call (EDecode b) (f b) DecodeFailed.

(** [array.length] *)
Definition len {A} (l : list A) : Z := Z.of_nat (length l).

(** ** src/index.js *)

Module Index.

Definition SESSION_TIMEOUT : Z := 60 * 60 * 1000.
Definition MAX_IMAGES_PER_USER : Z := 50.
Definition MAX_PDF_SIZE : Z := 50 * 1024 * 1024.

(** [{ images: [], lastActive: Date.now() }] *)
Record Session := mkSession { images : list Buffer; lastActive : Z }.

Definition set_images (s : Session) (l : list Buffer) : Session :=
  mkSession l (lastActive s).
Definition set_lastActive (s : Session) (t : Z) : Session :=
  mkSession (images s) t.

Section Handlers.
Variable E : Env.

(** [async function processImage(ctx, file)] *)
Definition processImage (s : Session) (file : option FileId) : Session * Trace :=
  if MAX_IMAGES_PER_USER <=? len (images s) then
    (s, [EReply (MsgMaxImages MAX_IMAGES_PER_USER)])
  else
    handled s (
      reply MsgProcessing ;;
      try_catch (
        imageBuffer ← fetch E file;
        processedImage ← sharp (sharp_jpeg E) imageBuffer;
        let s' := set_images s (images s ++ [processedImage]) in
        reply (MsgImageAdded (len (images s')) MAX_IMAGES_PER_USER) ;;
        mret s')
      (fun _ => reply MsgProcessFailed ;; mret s)).

(** Lines 142-143 on their own: the stretch of [processImage] that runs
    once its last [await] has settled with [processedImage], on
    [ctx.session] as it is by then.  The capacity was looked at in line
    123, before the first [await], and is not looked at again. *)
Definition processImage_push (s : Session) (processedImage : Buffer) : Session * Trace :=
  let s' := set_images s (images s ++ [processedImage]) in
  (s', [EReply (MsgImageAdded (len (images s')) MAX_IMAGES_PER_USER)]).

(** the 'data' listener of /convert *)
Definition on_data : Listener := data_listener MAX_PDF_SIZE.

(** [for (const [index, imgBuffer] of ctx.session.images.entries())];
    [n] is [ctx.session.images.length] *)
Fixpoint convert_loop (n index : Z) (imgs : list Buffer) (pdfDoc : Pdf) : M Pdf :=
  match imgs with
  | [] => mret pdfDoc
  | imgBuffer :: rest =>
      image ← sharp (sharp_toBuffer E) imgBuffer;
      pdfDoc ← pdfDoc_image E on_data image (OptFit 500 700) pdfDoc;
      pdfDoc ← (if index <? n - 1 then pdfDoc_addPage E on_data None pdfDoc
                else mret pdfDoc);
      convert_loop n (index + 1) rest pdfDoc
  end.

(** from [new PDFDocument()] to the 'end' event *)
Definition write_pdf (imgs : list Buffer) : M Pdf :=
  pdfDoc ← PDFDocument E on_data true;
  pdfDoc ← convert_loop (len imgs) 0 imgs pdfDoc;
  pdfDoc_end E on_data pdfDoc.

(** ... and to [Buffer.concat(buffers)]: the bytes of the document,
    and the pages they hold *)
Definition assemble (imgs : list Buffer) : M (Buffer * Doc) :=
  pdfDoc ← write_pdf imgs; mret (collect pdfDoc).

(** [bot.command('convert', ...)] *)
Definition convert (s : Session) : Session * Trace :=
  if len (images s) =? 0 then (s, [EReply MsgNoImages])
  else
    handled s (
      reply MsgCreatingPdf ;;
      try_catch (
        '(pdfBuffer, _) ← assemble (images s);
        replyWithDocument E pdfBuffer ImagesPdf (Some (len (images s))) ;;
        mret (set_images s []))
      (fun error => reply (MsgPdfFailed error) ;; mret s)).

End Handlers.

(** [bot.command('cancel', ...)] *)
Definition cancel (s : Session) : Session * Trace :=
  (set_images s [], [EReply MsgCleared]).

(** *** Documents sent as files *)

Record Document := mkDocument {
  file_id : FileId;
  mime_type : option string;
  file_name : option string
}.

Definition validTypes : list string := ["image/jpeg"; "image/png"; "image/jpg"]%string.
Definition validExts : list string := ["jpg"; "jpeg"; "png"]%string.

(** [name.split('.')]: never empty, the pieces between the dots *)
Fixpoint split_dot (name : string) : list string :=
  match name with
  | EmptyString => [EmptyString]
  | String c rest =>
      if Ascii.eqb c "."%char then EmptyString :: split_dot rest
      else match split_dot rest with
           | piece :: pieces => String c piece :: pieces
           | [] => [String c EmptyString]
           end
  end.

(** [c.toLowerCase()] on the letters A-Z; the other code units that
    JavaScript lowers are not ASCII and none of them lowers to a letter of
    "jpg", "jpeg" or "png" *)
Definition lower (c : ascii) : ascii :=
  let n := nat_of_ascii c in
  if ((65 <=? n) && (n <=? 90))%nat then ascii_of_nat (n + 32) else c.

Fixpoint toLowerCase (s : string) : string :=
  match s with
  | EmptyString => EmptyString
  | String c rest => String (lower c) (toLowerCase rest)
  end.

(** [list.includes(x)] *)
Definition includes (l : list string) (x : string) : bool :=
  existsb (String.eqb x) l.

(** [doc.file_name?.split('.').pop()?.toLowerCase()] *)
Definition fileExt (doc : Document) : option string :=
  name ← file_name doc; piece ← last (split_dot name); Some (toLowerCase piece).

(** [validTypes.includes(doc.mime_type) ||
     (fileExt && ['jpg', 'jpeg', 'png'].includes(fileExt))] *)
Definition accepted (doc : Document) : bool :=
  from_option (includes validTypes) false (mime_type doc)
  || from_option (fun ext => negb (String.eqb ext EmptyString) && includes validExts ext)
                 false (fileExt doc).

(** [bot.on('document', ...)]; its own [catch] is never entered, since
    [processImage] catches what it throws *)
Definition on_document (E : Env) (s : Session) (doc : Document) : Session * Trace :=
  if accepted doc then processImage E s (Some (file_id doc))
  else (s, [EReply MsgJpegPngOnly]).

(** [bot.on('photo', ...)]: [ctx.message.photo.pop()] is the last size;
    here too the handler's own [catch] is never entered *)
Definition on_photo (E : Env) (s : Session) (photo : list FileId) : Session * Trace :=
  processImage E s (last photo).

(** *** The session table *)

Inductive Update :=
| CmdStart
| CmdHelp
| CmdCancel
| CmdConvert
| MsgPhoto (photo : list FileId)
| MsgDocument (doc : Document)
| Other.                              (* no handler matches *)

Definition dispatch (E : Env) (s : Session) (u : Update) : Session * Trace :=
  match u with
  | CmdStart => (s, [EReply MsgStart])
  | CmdHelp => (s, [EReply MsgHelp])
  | CmdCancel => cancel s
  | CmdConvert => convert E s
  | MsgPhoto photo => on_photo E s photo
  | MsgDocument doc => on_document E s doc
  | Other => (s, [])
  end.

(** [bot.use(...)]: create the sender's session or refresh its
    [lastActive]; [ctx.session] is the entry of the table *)
Definition middleware (now userId : Z) (userSessions : gmap Z Session) : Session :=
  match userSessions !! userId with
  | None => mkSession [] now
  | Some s => set_lastActive s now
  end.

(** One update from [userId], handled at time [now] with nothing else
    running in between: the handler works on the table's entry. *)
Definition handleUpdate (E : Env) (now userId : Z) (u : Update)
    (userSessions : gmap Z Session) : gmap Z Session * Trace :=
  let '(s, t) := dispatch E (middleware now userId userSessions) u in
  (<[userId := s]> userSessions, t).

(** [!s.lastActive || (now - s.lastActive > SESSION_TIMEOUT)] *)
Definition expired (now : Z) (s : Session) : bool :=
  (lastActive s =? 0) || (SESSION_TIMEOUT <? now - lastActive s).

(** [function cleanupSessions()], run at [now = Date.now()] *)
Definition cleanupSessions (now : Z) (userSessions : gmap Z Session) : gmap Z Session :=
  filter (fun entry => expired now entry.2 = false) userSessions.

(** [cleanedCount], as logged *)
Definition cleanedCount (now : Z) (userSessions : gmap Z Session) : nat :=
  size (filter (fun entry => expired now entry.2 = true) userSessions).

(** The tables the bot can hold, clocks read after the epoch.  An update
    may be handled in one go ([reach_update]; with [Other] as the update
    this is the middleware alone), and the cleanup may run at any time.
    Handlers overlap, so the writes a handler makes after its [await]s
    also come on their own, on the entry as other handlers left it
    meanwhile: the push of [processImage] (line 142), here of any buffer
    and on any count, and the clearing of /convert (line 197). *)
Inductive reachable (E : Env) : gmap Z Session -> Prop :=
| reach_start : reachable E ∅
| reach_update now userId u m :
    0 < now -> reachable E m -> reachable E (handleUpdate E now userId u m).1
| reach_cleanup now m :
    reachable E m -> reachable E (cleanupSessions now m)
| reach_push userId s processedImage m :
    reachable E m -> m !! userId = Some s ->
    reachable E (<[userId := (processImage_push s processedImage).1]> m)
| reach_clear userId s m :
    reachable E m -> m !! userId = Some s ->
    reachable E (<[userId := set_images s []]> m).

End Index.

(** ** src/unnamed/part_001 *)

Module Part001.

Definition MAX_IMAGES : Z := 50.
(** [45 * 1024 * 1024], written out in the listener *)
Definition MAX_PDF_SIZE : Z := 45 * 1024 * 1024.

(** [{ buffer: processedImage, width: metadata.width, height: metadata.height }] *)
Record StoredImage := mkStored { buffer : Buffer; width : Z; height : Z }.

(** [{ images: [] }], with the [timestamp] the middleware writes *)
Record Session := mkSession { images : list StoredImage; timestamp : option Z }.

Definition set_images (s : Session) (l : list StoredImage) : Session :=
  mkSession l (timestamp s).

Record Document := mkDocument {
  file_id : FileId;
  mime_type : option string;
  file_name : option string
}.

Definition validTypes : list string := ["image/jpeg"; "image/png"]%string.

(** [doc.file_name?.split('.').pop()?.toLowerCase()] *)
Definition fileExt (doc : Document) : option string :=
  name ← file_name doc; piece ← last (Index.split_dot name);
  Some (Index.toLowerCase piece).

Definition accepted (doc : Document) : bool :=
  from_option (Index.includes validTypes) false (mime_type doc)
  || from_option (fun ext => negb (String.eqb ext EmptyString)
                             && Index.includes Index.validExts ext)
                 false (fileExt doc).

Section Handlers.
Variable E : Env.

(** [async function processImage(ctx, file)]: the whole body is in the
    [try]; [fetch] stands for [getFileLink] and [downloadImage] *)
Definition processImage (s : Session) (file : option FileId) : Session * Trace :=
  handled s (
    try_catch (
      if MAX_IMAGES <=? len (images s) then
        reply (MsgMaxImages MAX_IMAGES) ;; mret s
      else
        imageBuffer ← fetch E file;
        processedImage ← sharp (sharp_jpeg E) imageBuffer;
        metadata ← sharp (sharp_metadata E) processedImage;
        let s' := set_images s
                    (images s ++ [mkStored processedImage metadata.1 metadata.2]) in
        reply (MsgImageAdded (len (images s')) MAX_IMAGES) ;;
        mret s')
    (fun _ => reply MsgProcessFailed ;; mret s)).

(** [bot.on('photo', ...)] *)
Definition on_photo (s : Session) (photo : list FileId) : Session * Trace :=
  processImage s (last photo).

(** [bot.on('document', ...)] *)
Definition on_document (s : Session) (doc : Document) : Session * Trace :=
  if accepted doc then processImage s (Some (file_id doc))
  else (s, [EReply MsgJpegPngOnly]).

(** Lines 95-101 on their own: the stretch of [processImage] that runs
    once its last [await] has settled, on [ctx.session] as it is by then.
    The capacity was looked at in line 80, before the first [await]. *)
Definition processImage_push (s : Session) (stored : StoredImage) : Session * Trace :=
  let s' := set_images s (images s ++ [stored]) in
  (s', [EReply (MsgImageAdded (len (images s')) MAX_IMAGES)]).

(** the 'data' listener of /convert *)
Definition on_data : Listener := data_listener MAX_PDF_SIZE.

(** [img.width * 72 / 96]: three quarters of an integer, exact in a
    double *)
Definition points (pixels : Z) : Q := (inject_Z pixels * 72 / 96)%Q.

(** [for (const img of ctx.session.images)]: nothing is awaited in the
    loop, the stream does not flow yet and keeps what PDFKit pushes *)
Fixpoint convert_loop (imgs : list StoredImage) (pdfDoc : Pdf) : M Pdf :=
  match imgs with
  | [] => mret pdfDoc
  | img :: rest =>
      let pageWidth := points (width img) in
      let pageHeight := points (height img) in
      pdfDoc ← pdfDoc_addPage E kept (Some (pageWidth, pageHeight)) pdfDoc;
      pdfDoc ← pdfDoc_image E kept (buffer img) (OptAt 0 0 pageWidth pageHeight) pdfDoc;
      convert_loop rest pdfDoc
  end.

(** From [new PDFDocument({ autoFirstPage: false })] to [pdfDoc.end()],
    lines 134-160: one stretch without an [await].  The result holds the
    pages written and, for its sink, the chunks waiting in the stream. *)
Definition write_pdf (imgs : list StoredImage) : M Pdf :=
  pdfDoc ← PDFDocument E kept false;
  pdfDoc ← convert_loop imgs pdfDoc;
  pdfDoc_end E kept pdfDoc.

(** The handler awaits the promise of line 157.  The stream starts to flow
    in a tick of its own and hands the chunks it kept to the listener of
    line 138, in order; 'end' follows the last chunk.  A [Throw] here is
    the listener's [throw]: it is raised in that tick, under no [try] of
    the handler. *)
Definition flush (pdfDoc : Pdf) : M Pdf :=
  k ← deliver on_data (buffers (pdf_sink pdfDoc)) (mkSink [] 0);
  mret (mkPdf (pdf_doc pdfDoc) k).

(** The document written and then handed to the listener: on [Ok], what
    the promise resolves with, [Buffer.concat(buffers)], and the pages it
    holds.  On the listener's [Throw] the promise is never settled; what
    /convert makes of it is in [convert]. *)
Definition assemble (imgs : list StoredImage) : M (Buffer * Doc) :=
  pdfDoc ← write_pdf imgs; pdfDoc ← flush pdfDoc; mret (collect pdfDoc).

(** [bot.command('convert', ...)], with [now] what [Date.now()] reads
    when the file is named.  The [try] covers the first reply and the
    writing of the document, and later the sending and the clearing; the
    flush in between runs outside of it: what the listener throws there is
    an uncaught exception, after which the handler is never resumed, so
    that it neither replies nor sends nor clears. *)
Definition convert (now : Z) (s : Session) : Session * Trace :=
  if len (images s) =? 0 then (s, [EReply MsgNoImages])
  else
    let on_error := fun error => reply (MsgPdfFailed error) ;; mret s in
    match await_reply E MsgCreatingPdf ;; write_pdf (images s) with
    | (Throw error, t) => handled s (try_catch (Throw error, t) on_error)
    | (Ok pdfDoc, t) =>
        match flush pdfDoc with
        | (Throw error, t') => (s, t ++ t' ++ [EUncaught error])
        | (Ok pdfDoc, t') =>
            let '(s', t'') :=
              handled s (
                try_catch (
                  replyWithDocument E (collect pdfDoc).1 (ImagesStampedPdf now) None ;;
                  mret (set_images s []))
                on_error) in
            (s', t ++ t' ++ t'')
        end
    end.

End Handlers.
End Part001.

(** ** Reading a trace *)

(** the chunks the 'data' listener received, in order *)
Fixpoint data_chunks (t : Trace) : list Buffer :=
  match t with
  | [] => []
  | EData c :: t' => c :: data_chunks t'
  | _ :: t' => data_chunks t'
  end.

(** the bytes the writer emitted during the trace *)
Definition data_total (t : Trace) : Z := chunks_length (data_chunks t).

(** Does the running total, starting at [total], exceed [limit] after some
    chunk of the trace? *)
Fixpoint overflows (limit total : Z) (t : Trace) : bool :=
  match t with
  | [] => false
  | EData c :: t' =>
      (limit <? total + Buffer_length c) || overflows limit (total + Buffer_length c) t'
  | _ :: t' => overflows limit total t'
  end.

(** the payloads handed to [replyWithDocument] *)
Fixpoint sent_documents (t : Trace) : list Buffer :=
  match t with
  | [] => []
  | ESendDocument pdf _ _ :: t' => pdf :: sent_documents t'
  | _ :: t' => sent_documents t'
  end.

(** the files whose download was started *)
Fixpoint fetches (t : Trace) : list (option FileId) :=
  match t with
  | [] => []
  | EFetch f :: t' => f :: fetches t'
  | _ :: t' => fetches t'
  end.

(** the buffers handed to sharp *)
Fixpoint decodes (t : Trace) : list Buffer :=
  match t with
  | [] => []
  | EDecode b :: t' => b :: decodes t'
  | _ :: t' => decodes t'
  end.

(** an event of the writer at work: a chunk delivered, or an image decoded
    on the way *)
Definition writer_event (e : Event) : Prop :=
  match e with
  | EData _ | EDecode _ => True
  | _ => False
  end.

(** a chunk delivered, and nothing else *)
Definition is_data (e : Event) : Prop :=
  match e with EData _ => True | _ => False end.

(** What a computation that feeds the listener does to the sink [k] it
    starts from, [sink_of] reading the sink out of its result: it either
    stays within [limit] and has appended what it received, or it stops on
    the first chunk that takes the total over [limit], or it fails
    otherwise, within [limit]. *)
Definition tracked {A} (limit : Z) (sink_of : A -> Sink) (k : Sink) (m : M A) : Prop :=
  Forall writer_event m.2 /\
  match m.1 with
  | Ok a =>
      overflows limit (totalSize k) m.2 = false
      /\ buffers (sink_of a) = buffers k ++ data_chunks m.2
      /\ totalSize (sink_of a) = totalSize k + data_total m.2
  | Throw SizeLimitExceeded =>
      exists t1 c, m.2 = t1 ++ [EData c]
        /\ overflows limit (totalSize k) t1 = false
        /\ limit < totalSize k + data_total t1 + Buffer_length c
  | Throw _ => overflows limit (totalSize k) m.2 = false
  end.

(** What an assembly that collects the chunks of a tracked writer does:
    the bytes it returns are the chunks received, within the limit; or it
    stopped on the first chunk over the limit; or it failed otherwise. *)
Definition assembled (limit : Z) (m : M (Buffer * Doc)) : Prop :=
  Forall writer_event m.2 /\
  match m.1 with
  | Ok (pdf, _) =>
      overflows limit 0 m.2 = false
      /\ pdf = Buffer_concat (data_chunks m.2)
      /\ Buffer_length pdf = data_total m.2
      /\ Buffer_length pdf <= limit
  | Throw SizeLimitExceeded =>
      exists t1 c, m.2 = t1 ++ [EData c]
        /\ overflows limit 0 t1 = false
        /\ limit < data_total t1 + Buffer_length c
  | Throw _ => overflows limit 0 m.2 = false
  end.

(** A trace that respects a size limit: if the running total of the chunks
    ever exceeds [limit], the chunk that did it is followed by the failure
    reply and by nothing else, and no document was sent; and whatever
    document was sent is within [limit]. *)
Definition size_guarded (limit : Z) (t : Trace) : Prop :=
  (overflows limit 0 t = true ->
     sent_documents t = []
     /\ exists t1 c, t = t1 ++ [EData c; EReply (MsgPdfFailed SizeLimitExceeded)]
          /\ overflows limit 0 t1 = false
          /\ limit < data_total t1 + Buffer_length c)
  /\ (forall pdf, In pdf (sent_documents t) -> Buffer_length pdf <= limit).

(** how /convert ends after an assembly [r]: by sending the document, by
    failing to send it, or by reporting the error thrown *)
Definition convert_tail (r : Result (Buffer * Doc)) (tail : Trace) : Prop :=
  match r with
  | Ok (pdf, _) =>
      exists name caption,
        tail = [ESendDocument pdf name caption]
        \/ tail = [ESendDocument pdf name caption; EReply (MsgPdfFailed SendFailed)]
  | Throw e => tail = [EReply (MsgPdfFailed e)]
  end.

(** ** Ingesting a batch, and the pages a batch should give *)

(** what a file becomes when its download and its normalization succeed *)
Definition Index_normalized (E : Env) (f : FileId) : option Buffer :=
  fetchFile E f ≫= sharp_jpeg E.

Definition Part001_normalized (E : Env) (f : FileId) : option Part001.StoredImage :=
  raw ← fetchFile E f; jpg ← sharp_jpeg E raw; size ← sharp_metadata E jpg;
  Some (Part001.mkStored jpg size.1 size.2).

(** the files of a batch, ingested one after the other *)
Definition Index_ingest_all (E : Env) (s : Index.Session) (files : list FileId) : Index.Session :=
  foldl (fun s f => (Index.processImage E s (Some f)).1) s files.

Definition Part001_ingest_all (E : Env) (s : Part001.Session) (files : list FileId)
    : Part001.Session :=
  foldl (fun s f => (Part001.processImage E s (Some f)).1) s files.

(** index.js: a page of the default size, the decoded image fitted in a
    500 x 700 box *)
Definition Index_page_of (decoded : Buffer) : Page :=
  mkPage None [mkPlaced decoded (OptFit 500 700)].

(** part_001: a page of the size of the image at 72/96 points per pixel,
    the image covering it *)
Definition Part001_page_of (img : Part001.StoredImage) : Page :=
  let w := Part001.points (Part001.width img) in
  let h := Part001.points (Part001.height img) in
  mkPage (Some (w, h)) [mkPlaced (Part001.buffer img) (OptAt 0 0 w h)].

(** ** File names and their extensions *)

Fixpoint has_dot (s : string) : bool :=
  match s with
  | EmptyString => false
  | String c rest => Ascii.eqb c "."%char || has_dot rest
  end.

(** the pieces of a name, put back together with dots *)
Fixpoint join_dot (pieces : list string) : string :=
  match pieces with
  | [] => EmptyString
  | [piece] => piece
  | piece :: rest => String.append piece (String "."%char (join_dot rest))
  end.

(** [ext] is what follows the last dot of [name], or all of [name] when it
    has no dot *)
Definition is_extension (name ext : string) : Prop :=
  has_dot ext = false
  /\ (name = ext \/ exists stem, name = String.append stem (String "."%char ext)).

(** ** Sample collaborators and sessions *)

Definition sample_raw : Buffer := Buffer_alloc 300 Byte.x2a.
Definition sample_jpeg : Buffer := Buffer_alloc 200 Byte.xff.

(** Collaborators that always answer: every download gives [sample_raw],
    every normalization [sample_jpeg] of 640 x 480 pixels; the writer
    emits a 15-byte header, [page] bytes for an image, 40 for a page and
    120 at the end; [sends] tells whether Telegram takes the document. *)
Definition sample_env (page : N) (sends : bool) : Env :=
  mkEnv (fun _ => Some sample_raw)
        (fun _ => Some sample_jpeg)
        (fun b => Some b)
        (fun _ => Some (640, 480))
        (fun _ => [Buffer_alloc 15 Byte.x25])
        (fun _ _ => [Buffer_alloc page Byte.x00])
        (fun _ _ => [Buffer_alloc 40 Byte.x20])
        (fun _ => [Buffer_alloc 120 Byte.x0a])
        (fun _ => sends)
        (fun _ => true).

(** the same, with a sharp that cannot read back what is stored *)
Definition sample_env_unreadable : Env :=
  mkEnv (fetchFile (sample_env 1000 true))
        (sharp_jpeg (sample_env 1000 true))
        (fun _ => None)
        (sharp_metadata (sample_env 1000 true))
        (pdf_header_chunks (sample_env 1000 true))
        (pdf_image_chunks (sample_env 1000 true))
        (pdf_page_chunks (sample_env 1000 true))
        (pdf_end_chunks (sample_env 1000 true))
        (replyWithDocument_ok (sample_env 1000 true))
        (reply_ok (sample_env 1000 true)).

(** an image large enough for its page to pass 50 MiB *)
Definition huge : N := 52428801.

Definition Index_one_image : Index.Session := Index.mkSession [sample_jpeg] 1700000000000.
Definition Index_full : Index.Session :=
  Index.mkSession (replicate 50 sample_jpeg) 1700000000000.
Definition Index_empty : Index.Session := Index.mkSession [] 1700000000000.
(** one image short of the capacity *)
Definition Index_almost_full : Index.Session :=
  Index.mkSession (replicate 49 sample_jpeg) 1700000000000.

Definition Part001_one_image : Part001.Session :=
  Part001.mkSession [Part001.mkStored sample_jpeg 640 480] (Some 1700000000000).
Definition Part001_empty : Part001.Session := Part001.mkSession [] None.
Definition Part001_almost_full : Part001.Session :=
  Part001.mkSession (replicate 49 (Part001.mkStored sample_jpeg 640 480))
                    (Some 1700000000000).

(** the table after a first photo from user 42 *)
Definition sample_table : gmap Z Index.Session :=
  (Index.handleUpdate (sample_env 1000 true) 1700000000000 42
     (Index.MsgPhoto ["photo_1"%string]) ∅).1.

(** a file declared as image/jpg whose name does not end in an image
    extension *)
Definition Index_jpg_document : Index.Document :=
  Index.mkDocument "file_1"%string (Some "image/jpg"%string) (Some "scan.bin"%string).
Definition Part001_jpg_document : Part001.Document :=
  Part001.mkDocument "file_1"%string (Some "image/jpg"%string) (Some "scan.bin"%string).

(** a file of an unknown type whose name ends in .PNG *)
Definition Index_png_by_name : Index.Document :=
  Index.mkDocument "file_2"%string (Some "application/octet-stream"%string)
                   (Some "holiday.2024.PNG"%string).

(** ** part_001: the session table *)

Module Part001Table.

(** [86400000], written out in the middleware: a day, in milliseconds *)
Definition SESSION_MAX_AGE : Z := 86400000.

Inductive Update :=
| CmdStart
| CmdHelp
| CmdCancel
| CmdConvert
| MsgPhoto (photo : list FileId)
| MsgDocument (doc : Part001.Document)
| Other.                              (* no handler matches *)

(** [bot.command('cancel', ...)] *)
Definition cancel (s : Part001.Session) : Part001.Session * Trace :=
  (Part001.set_images s [], [EReply MsgCleared]).

(** the handler of an update; [named] is what [Date.now()] reads when
    /convert names its file *)
Definition dispatch (E : Env) (named : Z) (s : Part001.Session) (u : Update)
    : Part001.Session * Trace :=
  match u with
  | CmdStart => (s, [EReply MsgStart])
  | CmdHelp => (s, [EReply MsgHelp])
  | CmdCancel => cancel s
  | CmdConvert => Part001.convert E named s
  | MsgPhoto photo => Part001.on_photo E s photo
  | MsgDocument doc => Part001.on_document E s doc
  | Other => (s, [])
  end.

(** [s.timestamp && Date.now() - s.timestamp > 86400000] *)
Definition stale (now : Z) (s : Part001.Session) : bool :=
  match Part001.timestamp s with
  | Some t => negb (t =? 0) && (SESSION_MAX_AGE <? now - t)
  | None => false
  end.

(** What became of an update: the middleware answered that the session
    expired and ran no handler, or the handler ran and left its trace. *)
Inductive Answer :=
| SessionExpired                      (* "Session expired. Send /start" *)
| Handled (t : Trace).

(** [bot.use(...)] and the handler behind it, for one update from
    [userId]: [now] is what [Date.now()] reads in the test of the age,
    [stamp] what it reads when the timestamp is written. *)
Definition handleUpdate (E : Env) (now stamp named userId : Z) (u : Update)
    (userSessions : gmap Z Part001.Session) : gmap Z Part001.Session * Answer :=
  let s := default (Part001.mkSession [] None) (userSessions !! userId) in
  if stale now s then (delete userId userSessions, SessionExpired)
  else
    let '(s', t) := dispatch E named (Part001.mkSession (Part001.images s) (Some stamp)) u in
    (<[userId := s']> userSessions, Handled t).

End Part001Table.

(** ** Batches, with their traces *)

(** the trace of a batch ingested by index.js *)
Fixpoint Index_ingest_all_trace (E : Env) (s : Index.Session) (files : list FileId) : Trace :=
  match files with
  | [] => []
  | f :: rest =>
      (Index.processImage E s (Some f)).2
      ++ Index_ingest_all_trace E (Index.processImage E s (Some f)).1 rest
  end.

(** the counts announced by the image-added replies of a trace *)
Fixpoint added_counts (t : Trace) : list Z :=
  match t with
  | [] => []
  | EReply (MsgImageAdded count _) :: t' => count :: added_counts t'
  | _ :: t' => added_counts t'
  end.

(** an answer to the user: a reply, or the document *)
Definition is_answer (e : Event) : Prop :=
  match e with
  | EReply _ | ESendDocument _ _ _ => True
  | _ => False
  end.

(** A computation that hands to sharp the buffers of [l] in their order,
    stopping short of the end only when it fails. *)
Definition decodes_upto {A} (l : list Buffer) (m : M A) : Prop :=
  decodes m.2 `prefix_of` l /\ (forall a, m.1 = Ok a -> decodes m.2 = l).

(** a session of part_001 left idle for more than a day, and its table *)
Definition Part001_idle_table : gmap Z Part001.Session :=
  {[ 42 := Part001_one_image ]}.

(** a table of index.js with two users, one of them idle since long *)
Definition sample_table_two : gmap Z Index.Session :=
  <[ 7 := Index.mkSession [sample_jpeg; sample_jpeg] 1600000000000 ]> sample_table.

(** ** Facts about buffers and traces *)

Lemma chunks_length_app l1 l2 :
  chunks_length (l1 ++ l2) = chunks_length l1 + chunks_length l2.
Proof. induction l1 as [|c l1 IH]; simpl; [reflexivity | rewrite IH; lia]. Qed.

Lemma Buffer_concat_length l : Buffer_length (Buffer_concat l) = chunks_length l.
Proof.
  assert (Happ : forall r1 r2,
    Buffer_length (mkBuffer (r1 ++ r2))
    = Buffer_length (mkBuffer r1) + Buffer_length (mkBuffer r2)).
  { unfold Buffer_length. simpl. intros r1 r2.
    induction r1 as [|r r1 IH]; simpl; lia. }
  induction l as [|c l IH]; [reflexivity|].
  unfold Buffer_concat in *. simpl. rewrite Happ, IH. destruct c; reflexivity.
Qed.

Lemma data_chunks_app t1 t2 : data_chunks (t1 ++ t2) = data_chunks t1 ++ data_chunks t2.
Proof.
  induction t1 as [|e t1 IH]; simpl; [reflexivity|].
  destruct e; simpl; rewrite IH; reflexivity.
Qed.

Lemma data_total_app t1 t2 : data_total (t1 ++ t2) = data_total t1 + data_total t2.
Proof. unfold data_total. rewrite data_chunks_app. apply chunks_length_app. Qed.

Lemma overflows_app limit total t1 t2 :
  overflows limit total (t1 ++ t2)
  = overflows limit total t1 || overflows limit (total + data_total t1) t2.
Proof.
  revert total. induction t1 as [|e t1 IH]; intros total; simpl.
  - unfold data_total. simpl. f_equal. lia.
  - destruct e; simpl; rewrite ?IH; try reflexivity.
    unfold data_total. simpl. rewrite <- orb_assoc. do 3 f_equal. lia.
Qed.

Lemma sent_documents_app t1 t2 :
  sent_documents (t1 ++ t2) = sent_documents t1 ++ sent_documents t2.
Proof.
  induction t1 as [|e t1 IH]; simpl; [reflexivity|].
  destruct e; simpl; rewrite IH; reflexivity.
Qed.

(** Within the limit from a total within the limit, the final total is
    within the limit. *)
Lemma overflows_false_total limit total t :
  total <= limit -> overflows limit total t = false -> total + data_total t <= limit.
Proof.
  revert total. induction t as [|e t IH]; intros total Hle H.
  - unfold data_total. simpl. lia.
  - destruct e; simpl in H; try (apply IH; assumption).
    apply orb_false_iff in H as [H1 H2]. apply Z.ltb_ge in H1.
    specialize (IH _ H1 H2). unfold data_total in *. simpl. lia.
Qed.

(** [overflows] says what it should: the running total exceeds the limit
    right after some chunk of the trace. *)
Lemma overflows_true_iff limit total t :
  overflows limit total t = true <->
  exists t1 c t2, t = t1 ++ EData c :: t2
                  /\ limit < total + data_total t1 + Buffer_length c.
Proof.
  split.
  - revert total. induction t as [|e t IH]; intros total H; [discriminate|].
    assert (Hskip : forall ev, data_chunks [ev] = [] ->
              overflows limit total t = true ->
              exists t1 c t2, ev :: t = t1 ++ EData c :: t2
                  /\ limit < total + data_total t1 + Buffer_length c).
    { intros ev Hev Ht. destruct (IH _ Ht) as (t1 & c & t2 & -> & Hlt).
      exists (ev :: t1), c, t2. split; [reflexivity|].
      change (ev :: t1) with ([ev] ++ t1). rewrite data_total_app.
      unfold data_total at 1. rewrite Hev. simpl. lia. }
    destruct e; simpl in H; try (apply Hskip; [reflexivity | assumption]).
    apply orb_true_iff in H as [H | H].
    + exists [], chunk, t. split; [reflexivity|]. apply Z.ltb_lt in H.
      unfold data_total. simpl. lia.
    + destruct (IH _ H) as (t1 & c & t2 & -> & Hlt).
      exists (EData chunk :: t1), c, t2. split; [reflexivity|].
      unfold data_total in *. simpl. lia.
  - intros (t1 & c & t2 & -> & Hlt). rewrite overflows_app. simpl.
    apply orb_true_iff. right. apply orb_true_iff. left. apply Z.ltb_lt. lia.
Qed.

(** ** The listener and the writer calls are tracked *)

Section Tracked.
Variable limit : Z.

Lemma tracked_ret {A} (sink_of : A -> Sink) (a : A) :
  tracked limit sink_of (sink_of a) (mret a).
Proof.
  split; [constructor|]. simpl. unfold data_total. simpl.
  rewrite app_nil_r. repeat split; lia.
Qed.

Lemma tracked_bind {A B} (sa : A -> Sink) (sb : B -> Sink) k (m : M A) (f : A -> M B) :
  tracked limit sa k m ->
  (forall a, tracked limit sb (sa a) (f a)) ->
  tracked limit sb k (m ≫= f).
Proof.
  intros [Hev Hm] Hf. destruct m as [[a|e] t]; simpl in *.
  - specialize (Hf a). unfold mbind, M_bind, bind.
    destruct (f a) as [r t'] eqn:Hfa. destruct Hf as [Hev' Hf]. simpl in *.
    destruct Hm as (Hov & Hbuf & Htot).
    split; [apply Forall_app; split; assumption|].
    destruct r as [b|e]; simpl.
    + destruct Hf as (Hov' & Hbuf' & Htot').
      rewrite overflows_app, data_chunks_app, data_total_app, Hov.
      rewrite Htot in Hov', Htot'. rewrite Hbuf in Hbuf'.
      rewrite Hov', Hbuf', Htot', app_assoc. repeat split; lia.
    + destruct e; try (rewrite overflows_app, Hov; rewrite Htot in Hf; exact Hf).
      destruct Hf as (t1 & c & -> & Hov' & Hlt).
      exists (t ++ t1), c. rewrite app_assoc, overflows_app, data_total_app, Hov.
      rewrite Htot in Hov', Hlt. rewrite Hov'. repeat split; lia.
  - unfold mbind, M_bind, bind. simpl. split; [assumption|].
    destruct e; assumption.
Qed.

Lemma tracked_listener c k : tracked limit id k (data_listener limit c k).
Proof.
  unfold data_listener, emit, mbind, M_bind, bind. simpl.
  destruct (limit <? totalSize k + Buffer_length c) eqn:Hlt; simpl.
  - split; [repeat constructor|]. simpl. exists [], c.
    apply Z.ltb_lt in Hlt. unfold data_total. simpl. repeat split; lia.
  - split; [repeat constructor|]. simpl. rewrite Hlt.
    unfold data_total. simpl. repeat split; lia.
Qed.

Lemma tracked_deliver chunks k :
  tracked limit id k (deliver (data_listener limit) chunks k).
Proof.
  revert k. induction chunks as [|c cs IH]; intros k; simpl.
  - apply (tracked_ret id k).
  - apply (tracked_bind id id); [apply tracked_listener | exact IH].
Qed.

(** a decoding on the way changes nothing for the sink *)
Lemma tracked_sharp {A B} (sb : B -> Sink) k (dec : Buffer -> option A) b (f : A -> M B) :
  (forall a, tracked limit sb k (f a)) ->
  tracked limit sb k (sharp dec b ≫= f).
Proof.
  intros Hf. unfold sharp, call, mbind, M_bind, bind.
  destruct (dec b) as [a|]; simpl.
  - specialize (Hf a). destruct (f a) as [r t]. destruct Hf as [Hev Hf]. simpl in *.
    split; [constructor; [exact I | assumption]|].
    destruct r as [x|e]; simpl; [exact Hf|].
    destruct e; try exact Hf.
    destruct Hf as (t1 & c & -> & Hov & Hlt).
    exists (EDecode b :: t1), c. repeat split; assumption.
  - split; [repeat constructor | reflexivity].
Qed.

Variable E : Env.

Lemma tracked_PDFDocument auto :
  tracked limit pdf_sink (mkSink [] 0) (PDFDocument E (data_listener limit) auto).
Proof.
  unfold PDFDocument. apply (tracked_bind id pdf_sink); [apply tracked_deliver|].
  intros k. apply (tracked_ret pdf_sink (mkPdf _ k)).
Qed.

Lemma tracked_addPage size p :
  tracked limit pdf_sink (pdf_sink p) (pdfDoc_addPage E (data_listener limit) size p).
Proof.
  unfold pdfDoc_addPage. apply (tracked_bind id pdf_sink); [apply tracked_deliver|].
  intros k. apply (tracked_ret pdf_sink (mkPdf _ k)).
Qed.

Lemma tracked_image data opts p :
  tracked limit pdf_sink (pdf_sink p) (pdfDoc_image E (data_listener limit) data opts p).
Proof.
  unfold pdfDoc_image. destruct (doc_image _ _) as [d|].
  - apply (tracked_bind id pdf_sink); [apply tracked_deliver|].
    intros k. apply (tracked_ret pdf_sink (mkPdf _ k)).
  - split; [constructor | reflexivity].
Qed.

Lemma tracked_end p :
  tracked limit pdf_sink (pdf_sink p) (pdfDoc_end E (data_listener limit) p).
Proof.
  unfold pdfDoc_end. apply (tracked_bind id pdf_sink); [apply tracked_deliver|].
  intros k. apply (tracked_ret pdf_sink (mkPdf _ k)).
Qed.
End Tracked.

Lemma assembled_collect limit (m : M Pdf) :
  0 <= limit ->
  tracked limit pdf_sink (mkSink [] 0) m ->
  assembled limit (pdfDoc ← m; mret (collect pdfDoc)).
Proof.
  intros Hlim [Hev Hm]. destruct m as [[p|e] t]; simpl in *.
  - destruct Hm as (Hov & Hbuf & Htot).
    unfold assembled. simpl. rewrite app_nil_r. split; [assumption|].
    rewrite Hbuf. simpl. rewrite Buffer_concat_length. fold (data_total t).
    repeat split; try assumption.
    pose proof (overflows_false_total limit 0 t Hlim Hov). lia.
  - unfold assembled. simpl. split; [assumption|]. destruct e; assumption.
Qed.

(** ** /convert, as the outcome of its assembly *)

Ltac run_handler :=
  unfold handled, try_catch, reply, await_reply, emit, replyWithDocument, call,
    mbind, M_bind, bind, mret, M_ret, ret; simpl.

Lemma len_zero {A} (l : list A) : (len l =? 0) = true <-> l = [].
Proof.
  unfold len. rewrite Z.eqb_eq. destruct l; simpl; split; intros H;
    try reflexivity; try discriminate; lia.
Qed.

Lemma len_nonzero {A} (l : list A) : l <> [] -> (len l =? 0) = false.
Proof.
  intros H. destruct (len l =? 0) eqn:Hl; [|reflexivity].
  apply len_zero in Hl. contradiction.
Qed.

Section IndexAssembly.
Variable E : Env.

Lemma Index_loop_tracked imgs : forall n index p,
  tracked Index.MAX_PDF_SIZE pdf_sink (pdf_sink p) (Index.convert_loop E n index imgs p).
Proof.
  induction imgs as [|img rest IH]; intros n index p; simpl.
  - apply (tracked_ret _ pdf_sink p).
  - apply tracked_sharp. intros decoded.
    apply (tracked_bind _ pdf_sink pdf_sink); [apply tracked_image|]. intros p1.
    apply (tracked_bind _ pdf_sink pdf_sink); [|intros p2; apply IH].
    destruct (index <? n - 1); [apply tracked_addPage | apply (tracked_ret _ pdf_sink p1)].
Qed.

Lemma Index_write_pdf_tracked imgs :
  tracked Index.MAX_PDF_SIZE pdf_sink (mkSink [] 0) (Index.write_pdf E imgs).
Proof.
  unfold Index.write_pdf.
  apply (tracked_bind _ pdf_sink pdf_sink); [apply tracked_PDFDocument|]. intros p.
  apply (tracked_bind _ pdf_sink pdf_sink); [apply Index_loop_tracked|]. intros p1.
  apply tracked_end.
Qed.

Lemma Index_assembled imgs : assembled Index.MAX_PDF_SIZE (Index.assemble E imgs).
Proof.
  apply assembled_collect; [unfold Index.MAX_PDF_SIZE; lia|].
  apply Index_write_pdf_tracked.
Qed.

(** The three ways /convert ends on a session with images. *)
Lemma Index_convert_cases s :
  Index.images s <> [] ->
  match Index.assemble E (Index.images s) with
  | (Ok (pdf, _), t) =>
      let sent := ESendDocument pdf ImagesPdf (Some (len (Index.images s))) in
      if replyWithDocument_ok E pdf then
        Index.convert E s
        = (Index.set_images s [], EReply MsgCreatingPdf :: t ++ [sent])
      else
        Index.convert E s
        = (s, EReply MsgCreatingPdf :: t ++ [sent; EReply (MsgPdfFailed SendFailed)])
  | (Throw e, t) =>
      Index.convert E s = (s, EReply MsgCreatingPdf :: t ++ [EReply (MsgPdfFailed e)])
  end.
Proof.
  intros Hne. unfold Index.convert. rewrite (len_nonzero _ Hne).
  destruct (Index.assemble E (Index.images s)) as [[[pdf doc]|e] t]; run_handler.
  - destruct (replyWithDocument_ok E pdf); simpl.
    + rewrite ?app_nil_r. reflexivity.
    + rewrite <- ?app_assoc. reflexivity.
  - reflexivity.
Qed.
End IndexAssembly.


(** ** C1: the size limit *)

Lemma writer_trace_sends_nothing t : Forall writer_event t -> sent_documents t = [].
Proof.
  induction 1 as [|e t He _ IH]; [reflexivity|].
  destruct e; simpl in *; try contradiction; assumption.
Qed.

Lemma overflows_silent limit total t : data_chunks t = [] -> overflows limit total t = false.
Proof.
  induction t as [|e t IH]; [reflexivity|].
  destruct e; simpl; try assumption. discriminate.
Qed.

Lemma data_total_silent t : data_chunks t = [] -> data_total t = 0.
Proof. unfold data_total. intros ->. reflexivity. Qed.

Lemma convert_tail_silent r tail :
  convert_tail r tail -> data_chunks tail = [].
Proof.
  destruct r as [[pdf doc]|e]; simpl.
  - intros (name & caption & [-> | ->]); reflexivity.
  - intros ->. reflexivity.
Qed.

(** The trace of /convert around an assembly respects the limit. *)
Lemma size_guarded_convert limit (m : M (Buffer * Doc)) tail :
  assembled limit m ->
  convert_tail m.1 tail ->
  size_guarded limit (EReply MsgCreatingPdf :: m.2 ++ tail).
Proof.
  intros [Hev Hm] Htail.
  assert (Hov : overflows limit 0 (EReply MsgCreatingPdf :: m.2 ++ tail)
                = overflows limit 0 m.2).
  { simpl. rewrite overflows_app, (overflows_silent _ _ tail), orb_false_r;
      [reflexivity | eapply convert_tail_silent; eassumption]. }
  assert (Hsent : sent_documents (EReply MsgCreatingPdf :: m.2 ++ tail)
                  = sent_documents tail).
  { simpl. rewrite sent_documents_app, (writer_trace_sends_nothing _ Hev).
    reflexivity. }
  unfold size_guarded. rewrite Hov, Hsent. clear Hov Hsent.
  destruct m as [[[pdf doc]|e] t]; simpl in *.
  - destruct Hm as (Hov & _ & _ & Hle). split; [congruence|].
    destruct Htail as (name & caption & [-> | ->]); simpl;
      intros pdf' [<- | []]; assumption.
  - subst tail. simpl. split; [|intros ? []].
    destruct e; try congruence.
    destruct Hm as (t1 & c & -> & Hov & Hlt). intros _. split; [reflexivity|].
    exists (EReply MsgCreatingPdf :: t1), c. simpl.
    rewrite <- app_assoc. simpl. repeat split; assumption.
Qed.

Lemma size_guarded_silent limit t :
  data_chunks t = [] -> sent_documents t = [] -> size_guarded limit t.
Proof.
  intros Hd Hs. unfold size_guarded. rewrite (overflows_silent _ _ _ Hd), Hs.
  split; [discriminate | intros ? []].
Qed.

Lemma Index_convert_size_guarded E s :
  size_guarded Index.MAX_PDF_SIZE (Index.convert E s).2.
Proof.
  destruct (Index.images s) as [|img rest] eqn:Himgs.
  - unfold Index.convert. rewrite Himgs. simpl.
    apply size_guarded_silent; reflexivity.
  - assert (Hne : Index.images s <> []) by (rewrite Himgs; discriminate).
    pose proof (Index_convert_cases E s Hne) as Hc.
    pose proof (Index_assembled E (Index.images s)) as Ha.
    destruct (Index.assemble E (Index.images s)) as [[[pdf doc]|e] t] eqn:Hasm.
    + simpl in Hc. destruct (replyWithDocument_ok E pdf); rewrite Hc; simpl;
        apply (size_guarded_convert _ (Ok (pdf, doc), t)); try assumption;
        simpl; eauto.
    + rewrite Hc. simpl.
      apply (size_guarded_convert _ (Throw e, t)); [assumption | reflexivity].
Qed.

(** ** Ingestion, case by case *)

Lemma Index_processImage_cases E s file :
  Index.processImage E s file =
  if Index.MAX_IMAGES_PER_USER <=? len (Index.images s) then
    (s, [EReply (MsgMaxImages Index.MAX_IMAGES_PER_USER)])
  else
    match file ≫= fetchFile E with
    | None => (s, [EReply MsgProcessing; EFetch file; EReply MsgProcessFailed])
    | Some raw =>
        match sharp_jpeg E raw with
        | None =>
            (s, [EReply MsgProcessing; EFetch file; EDecode raw; EReply MsgProcessFailed])
        | Some jpg =>
            (Index.set_images s (Index.images s ++ [jpg]),
             [EReply MsgProcessing; EFetch file; EDecode raw;
              EReply (MsgImageAdded (len (Index.images s ++ [jpg]))
                                    Index.MAX_IMAGES_PER_USER)])
        end
    end.
Proof.
  unfold Index.processImage.
  destruct (Index.MAX_IMAGES_PER_USER <=? len (Index.images s)); [reflexivity|].
  unfold fetch, sharp.
  destruct (file ≫= fetchFile E) as [raw|]; run_handler; [|reflexivity].
  destruct (sharp_jpeg E raw) as [jpg|]; reflexivity.
Qed.

Lemma Part001_processImage_cases E s file :
  Part001.processImage E s file =
  if Part001.MAX_IMAGES <=? len (Part001.images s) then
    (s, [EReply (MsgMaxImages Part001.MAX_IMAGES)])
  else
    match file ≫= fetchFile E with
    | None => (s, [EFetch file; EReply MsgProcessFailed])
    | Some raw =>
        match sharp_jpeg E raw with
        | None => (s, [EFetch file; EDecode raw; EReply MsgProcessFailed])
        | Some jpg =>
            match sharp_metadata E jpg with
            | None => (s, [EFetch file; EDecode raw; EDecode jpg; EReply MsgProcessFailed])
            | Some size =>
                let stored := Part001.mkStored jpg size.1 size.2 in
                (Part001.set_images s (Part001.images s ++ [stored]),
                 [EFetch file; EDecode raw; EDecode jpg;
                  EReply (MsgImageAdded (len (Part001.images s ++ [stored]))
                                        Part001.MAX_IMAGES)])
            end
        end
    end.
Proof.
  unfold Part001.processImage.
  destruct (Part001.MAX_IMAGES <=? len (Part001.images s)); [reflexivity|].
  unfold fetch, sharp.
  destruct (file ≫= fetchFile E) as [raw|]; run_handler; [|reflexivity].
  destruct (sharp_jpeg E raw) as [jpg|]; simpl; [|reflexivity].
  destruct (sharp_metadata E jpg) as [size|]; reflexivity.
Qed.

(** ** The pages written *)

Lemma bind_fst_ok {A B} (m : M A) (f : A -> M B) a :
  m.1 = Ok a -> (m ≫= f).1 = (f a).1.
Proof.
  destruct m as [r t]. simpl. intros ->. unfold mbind, M_bind, bind.
  destruct (f a). reflexivity.
Qed.

Lemma bind_fst_throw {A B} (m : M A) (f : A -> M B) e :
  m.1 = Throw e -> (m ≫= f).1 = Throw e.
Proof. destruct m as [r t]. simpl. intros ->. reflexivity. Qed.

Lemma bind_trace_Forall {A B} (P : Event -> Prop) (m : M A) (f : A -> M B) :
  Forall P m.2 -> (forall a, Forall P (f a).2) -> Forall P (m ≫= f).2.
Proof.
  destruct m as [[a|e] t]; simpl; intros Hm Hf; [|assumption].
  unfold mbind, M_bind, bind. specialize (Hf a). destruct (f a) as [r t'].
  apply Forall_app. split; assumption.
Qed.

Lemma is_data_no_decodes t : Forall is_data t -> decodes t = [].
Proof.
  induction 1 as [|e t He _ IH]; [reflexivity|].
  destruct e; simpl in *; try contradiction; assumption.
Qed.

Section WriterResults.
Variable E : Env.
Variable limit : Z.

Lemma listener_fst c k :
  match (data_listener limit c k).1 with
  | Ok _ => True
  | Throw e => e = SizeLimitExceeded
  end.
Proof.
  unfold data_listener, emit. run_handler.
  destruct (limit <? totalSize k + Buffer_length c); simpl; [reflexivity | exact I].
Qed.

Lemma deliver_fst chunks : forall k,
  match (deliver (data_listener limit) chunks k).1 with
  | Ok _ => True
  | Throw e => e = SizeLimitExceeded
  end.
Proof.
  induction chunks as [|c cs IH]; intros k; simpl; [exact I|].
  pose proof (listener_fst c k) as Hl.
  destruct (data_listener limit c k).1 as [k'|e] eqn:Hr.
  - rewrite (bind_fst_ok _ _ _ Hr). apply IH.
  - rewrite (bind_fst_throw _ _ _ Hr). exact Hl.
Qed.

Lemma deliver_data chunks : forall k,
  Forall is_data (deliver (data_listener limit) chunks k).2.
Proof.
  induction chunks as [|c cs IH]; intros k; simpl; [constructor|].
  apply bind_trace_Forall; [|intros k'; apply IH].
  unfold data_listener, emit. run_handler.
  destruct (limit <? _); repeat constructor.
Qed.

Local Abbreviation od := (data_listener limit).

Lemma PDFDocument_fst auto :
  (PDFDocument E od auto).1 = Throw SizeLimitExceeded
  \/ exists k, (PDFDocument E od auto).1 = Ok (mkPdf (doc_new auto) k).
Proof.
  unfold PDFDocument.
  pose proof (deliver_fst (pdf_header_chunks E auto) (mkSink [] 0)) as H.
  destruct (deliver od _ _) as [[k|e] t] eqn:Hd; simpl in H.
  - right. exists k. reflexivity.
  - left. subst e. reflexivity.
Qed.

Lemma addPage_fst size p :
  (pdfDoc_addPage E od size p).1 = Throw SizeLimitExceeded
  \/ exists k, (pdfDoc_addPage E od size p).1 = Ok (mkPdf (doc_addPage size (pdf_doc p)) k).
Proof.
  unfold pdfDoc_addPage.
  pose proof (deliver_fst (pdf_page_chunks E (pdf_doc p) size) (pdf_sink p)) as H.
  destruct (deliver od _ _) as [[k|e] t] eqn:Hd; simpl in H.
  - right. exists k. reflexivity.
  - left. subst e. reflexivity.
Qed.

Lemma image_fst data opts p d :
  doc_image (mkPlaced data opts) (pdf_doc p) = Some d ->
  (pdfDoc_image E od data opts p).1 = Throw SizeLimitExceeded
  \/ exists k, (pdfDoc_image E od data opts p).1 = Ok (mkPdf d k).
Proof.
  intros Hd. unfold pdfDoc_image. rewrite Hd.
  pose proof (deliver_fst (pdf_image_chunks E (pdf_doc p) (mkPlaced data opts))
                (pdf_sink p)) as H.
  destruct (deliver od _ _) as [[k|e] t] eqn:Hdel; simpl in H.
  - right. exists k. reflexivity.
  - left. subst e. reflexivity.
Qed.

Lemma end_fst p :
  (pdfDoc_end E od p).1 = Throw SizeLimitExceeded
  \/ exists k, (pdfDoc_end E od p).1 = Ok (mkPdf (pdf_doc p) k).
Proof.
  unfold pdfDoc_end.
  pose proof (deliver_fst (pdf_end_chunks E (pdf_doc p)) (pdf_sink p)) as H.
  destruct (deliver od _ _) as [[k|e] t] eqn:Hd; simpl in H.
  - right. exists k. reflexivity.
  - left. subst e. reflexivity.
Qed.

Lemma writer_calls_data :
  (forall auto, Forall is_data (PDFDocument E od auto).2)
  /\ (forall size p, Forall is_data (pdfDoc_addPage E od size p).2)
  /\ (forall data opts p, Forall is_data (pdfDoc_image E od data opts p).2)
  /\ (forall p, Forall is_data (pdfDoc_end E od p).2).
Proof.
  repeat split; intros.
  - unfold PDFDocument. apply bind_trace_Forall; [apply deliver_data|]. constructor.
  - unfold pdfDoc_addPage. apply bind_trace_Forall; [apply deliver_data|]. constructor.
  - unfold pdfDoc_image. destruct (doc_image _ _); [|constructor].
    apply bind_trace_Forall; [apply deliver_data|]. constructor.
  - unfold pdfDoc_end. apply bind_trace_Forall; [apply deliver_data|]. constructor.
Qed.
End WriterResults.

Lemma doc_image_current pi d p :
  doc_image pi (d ++ [p]) = Some (d ++ [mkPage (page_size p) (page_content p ++ [pi])]).
Proof.
  induction d as [|q d IH]; [reflexivity|].
  simpl. rewrite IH. destruct (d ++ [p]) eqn:Hd; [|reflexivity].
  destruct d; discriminate.
Qed.

Lemma mapM_cons_eq {A B} (f : A -> option B) x l :
  mapM f (x :: l) = y ← f x; k ← mapM f l; mret (y :: k).
Proof. reflexivity. Qed.

Section IndexPages.
Variable E : Env.

Lemma Index_loop_cons n index img rest p :
  Index.convert_loop E n index (img :: rest) p
  = decoded ← sharp (sharp_toBuffer E) img;
    p1 ← pdfDoc_image E Index.on_data decoded (OptFit 500 700) p;
    p2 ← (if index <? n - 1 then pdfDoc_addPage E Index.on_data None p1 else mret p1);
    Index.convert_loop E n (index + 1) rest p2.
Proof. reflexivity. Qed.

(** The loop of index.js, entered on the blank current page left by the
    pages [d] before it: one page per image, each holding the image as
    sharp read it back; it can only fail on the size limit or on an image
    sharp cannot read. *)
Lemma Index_loop_pages imgs : forall n index p d,
  imgs <> [] -> n - index = len imgs -> pdf_doc p = d ++ [mkPage None []] ->
  match (Index.convert_loop E n index imgs p).1 with
  | Ok p' =>
      exists decoded, mapM (sharp_toBuffer E) imgs = Some decoded
                      /\ pdf_doc p' = d ++ map Index_page_of decoded
  | Throw e =>
      e = SizeLimitExceeded
      \/ (e = DecodeFailed /\ mapM (sharp_toBuffer E) imgs = None)
  end.
Proof.
  induction imgs as [|img rest IH]; intros n index p d Hne Hlen Hdoc; [contradiction|].
  rewrite Index_loop_cons.
  destruct (sharp_toBuffer E img) as [decoded|] eqn:Hdec.
  2: { rewrite (bind_fst_throw _ _ DecodeFailed) by (unfold sharp, call; rewrite Hdec; reflexivity).
       right. split; [reflexivity|]. rewrite mapM_cons_eq, Hdec. reflexivity. }
  rewrite (bind_fst_ok _ _ decoded) by (unfold sharp, call; rewrite Hdec; reflexivity).
  assert (Himg : doc_image (mkPlaced decoded (OptFit 500 700)) (pdf_doc p)
                 = Some (d ++ [Index_page_of decoded])).
  { rewrite Hdoc. apply doc_image_current. }
  unfold Index.on_data.
  destruct (image_fst E Index.MAX_PDF_SIZE _ _ _ _ Himg) as [Hth | [k Hok]].
  { rewrite (bind_fst_throw _ _ _ Hth). left. reflexivity. }
  rewrite (bind_fst_ok _ _ _ Hok).
  destruct rest as [|img2 rest].
  - assert (Hlast : (index <? n - 1) = false).
    { apply Z.ltb_ge. unfold len in Hlen. simpl in Hlen. lia. }
    rewrite Hlast. exists [decoded]. split; [|reflexivity].
    rewrite mapM_cons_eq, Hdec. reflexivity.
  - assert (Hmore : (index <? n - 1) = true).
    { apply Z.ltb_lt. unfold len in Hlen. simpl in Hlen. lia. }
    rewrite Hmore.
    destruct (addPage_fst E Index.MAX_PDF_SIZE None (mkPdf (d ++ [Index_page_of decoded]) k))
      as [Hth | [k2 Hok2]].
    { rewrite (bind_fst_throw _ _ _ Hth). left. reflexivity. }
    rewrite (bind_fst_ok _ _ _ Hok2).
    specialize (IH n (index + 1) (mkPdf (doc_addPage None (d ++ [Index_page_of decoded])) k2)
                   (d ++ [Index_page_of decoded])).
    lapply IH; [clear IH; intros IH | discriminate].
    lapply IH; [clear IH; intros IH |].
    2: { unfold len in *. simpl length in *. lia. }
    specialize (IH eq_refl). rewrite (mapM_cons_eq _ img).
    destruct (Index.convert_loop E n (index + 1) (img2 :: rest) _).1 as [p'|e].
    + destruct IH as (decoded' & Hm & Hd). exists (decoded :: decoded'). split.
      * rewrite Hdec, Hm. reflexivity.
      * rewrite Hd, <- app_assoc. reflexivity.
    + destruct IH as [-> | [-> Hm]]; [left; reflexivity|]. right. split; [reflexivity|].
      rewrite Hdec, Hm. reflexivity.
Qed.

Lemma Index_write_pdf_pages imgs :
  imgs <> [] ->
  match (Index.write_pdf E imgs).1 with
  | Ok p' =>
      exists decoded, mapM (sharp_toBuffer E) imgs = Some decoded
                      /\ pdf_doc p' = map Index_page_of decoded
  | Throw e =>
      e = SizeLimitExceeded
      \/ (e = DecodeFailed /\ mapM (sharp_toBuffer E) imgs = None)
  end.
Proof.
  intros Hne. unfold Index.write_pdf, Index.on_data.
  destruct (PDFDocument_fst E Index.MAX_PDF_SIZE true) as [Hth | [k Hok]].
  { rewrite (bind_fst_throw _ _ _ Hth). left. reflexivity. }
  rewrite (bind_fst_ok _ _ _ Hok).
  pose proof (Index_loop_pages imgs (len imgs) 0 (mkPdf (doc_new true) k) [] Hne) as Hl.
  lapply Hl; [clear Hl; intros Hl | lia]. specialize (Hl eq_refl).
  fold Index.on_data.
  destruct (Index.convert_loop E (len imgs) 0 imgs _).1 as [p'|e] eqn:Hr.
  - rewrite (bind_fst_ok _ _ _ Hr). unfold Index.on_data.
    destruct (end_fst E Index.MAX_PDF_SIZE p') as [-> | [k' ->]]; [left; reflexivity|].
    exact Hl.
  - rewrite (bind_fst_throw _ _ _ Hr). exact Hl.
Qed.

Lemma Index_assemble_fst imgs :
  (Index.assemble E imgs).1
  = match (Index.write_pdf E imgs).1 with
    | Ok p => Ok (collect p)
    | Throw e => Throw e
    end.
Proof.
  unfold Index.assemble. destruct (Index.write_pdf E imgs) as [[p|e] t]; reflexivity.
Qed.
End IndexPages.

Lemma bind_ok_nil {A B} (a : A) (f : A -> M B) : ((Ok a, []) : M A) ≫= f = f a.
Proof. unfold mbind, M_bind, bind. destruct (f a). reflexivity. Qed.

Lemma writer_trace_no_reply t m : Forall writer_event t -> ~ In (EReply m) t.
Proof.
  intros Hev Hin. rewrite Forall_forall in Hev.
  apply list_elem_of_In, Hev in Hin. contradiction.
Qed.

Section Part001Pages.
Variable E : Env.

(** A stream that does not flow keeps what it is given: no event, no
    throw. *)
Lemma kept_deliver chunks : forall k, exists k', deliver kept chunks k = (Ok k', []).
Proof.
  induction chunks as [|c cs IH]; intros k; [exists k; reflexivity|].
  destruct (IH (mkSink (buffers k ++ [c]) (totalSize k + Buffer_length c))) as [k' Hk'].
  exists k'.
  change (deliver kept (c :: cs) k) with (k1 ← kept c k; deliver kept cs k1).
  change (kept c k)
    with ((Ok (mkSink (buffers k ++ [c]) (totalSize k + Buffer_length c)), []) : M Sink).
  rewrite bind_ok_nil. exact Hk'.
Qed.

Lemma kept_PDFDocument auto :
  exists k, PDFDocument E kept auto = (Ok (mkPdf (doc_new auto) k), []).
Proof.
  unfold PDFDocument.
  destruct (kept_deliver (pdf_header_chunks E auto) (mkSink [] 0)) as [k ->].
  exists k. rewrite bind_ok_nil. reflexivity.
Qed.

Lemma kept_addPage size p :
  exists k, pdfDoc_addPage E kept size p
            = (Ok (mkPdf (doc_addPage size (pdf_doc p)) k), []).
Proof.
  unfold pdfDoc_addPage.
  destruct (kept_deliver (pdf_page_chunks E (pdf_doc p) size) (pdf_sink p)) as [k ->].
  exists k. rewrite bind_ok_nil. reflexivity.
Qed.

Lemma kept_image data opts p d :
  doc_image (mkPlaced data opts) (pdf_doc p) = Some d ->
  exists k, pdfDoc_image E kept data opts p = (Ok (mkPdf d k), []).
Proof.
  intros Hd. unfold pdfDoc_image. rewrite Hd.
  destruct (kept_deliver (pdf_image_chunks E (pdf_doc p) (mkPlaced data opts)) (pdf_sink p))
    as [k ->].
  exists k. rewrite bind_ok_nil. reflexivity.
Qed.

Lemma kept_end p : exists k, pdfDoc_end E kept p = (Ok (mkPdf (pdf_doc p) k), []).
Proof.
  unfold pdfDoc_end.
  destruct (kept_deliver (pdf_end_chunks E (pdf_doc p)) (pdf_sink p)) as [k ->].
  exists k. rewrite bind_ok_nil. reflexivity.
Qed.

Lemma Part001_loop_cons img rest p :
  Part001.convert_loop E (img :: rest) p
  = p1 ← pdfDoc_addPage E kept
           (Some (Part001.points (Part001.width img), Part001.points (Part001.height img))) p;
    p2 ← pdfDoc_image E kept (Part001.buffer img)
           (OptAt 0 0 (Part001.points (Part001.width img))
                      (Part001.points (Part001.height img))) p1;
    Part001.convert_loop E rest p2.
Proof. reflexivity. Qed.

(** The loop of part_001 adds one page per stored image, sized from the
    stored dimensions; no chunk is delivered meanwhile and nothing can
    fail. *)
Lemma Part001_loop_pages imgs : forall p,
  exists k, Part001.convert_loop E imgs p
            = (Ok (mkPdf (pdf_doc p ++ map Part001_page_of imgs) k), []).
Proof.
  induction imgs as [|img rest IH]; intros p.
  - exists (pdf_sink p). simpl. rewrite app_nil_r. destruct p; reflexivity.
  - rewrite Part001_loop_cons.
    destruct (kept_addPage (Some (Part001.points (Part001.width img),
                                  Part001.points (Part001.height img))) p) as [k1 ->].
    rewrite bind_ok_nil.
    destruct (kept_image (Part001.buffer img)
                (OptAt 0 0 (Part001.points (Part001.width img))
                           (Part001.points (Part001.height img)))
                (mkPdf (doc_addPage (Some (Part001.points (Part001.width img),
                                           Part001.points (Part001.height img)))
                          (pdf_doc p)) k1)
                (pdf_doc p ++ [Part001_page_of img])) as [k2 ->].
    { apply doc_image_current. }
    rewrite bind_ok_nil.
    destruct (IH (mkPdf (pdf_doc p ++ [Part001_page_of img]) k2)) as [k ->].
    exists k. simpl. rewrite <- app_assoc. reflexivity.
Qed.

(** part_001 has written every page and ended the document before one
    chunk has reached the listener. *)
Lemma Part001_write_pdf_pages imgs :
  exists k, Part001.write_pdf E imgs = (Ok (mkPdf (map Part001_page_of imgs) k), []).
Proof.
  unfold Part001.write_pdf.
  destruct (kept_PDFDocument false) as [k0 ->]. rewrite bind_ok_nil.
  destruct (Part001_loop_pages imgs (mkPdf (doc_new false) k0)) as [k1 ->].
  rewrite bind_ok_nil. apply kept_end.
Qed.

Lemma Part001_flush_tracked p :
  tracked Part001.MAX_PDF_SIZE pdf_sink (mkSink [] 0) (Part001.flush p).
Proof.
  unfold Part001.flush, Part001.on_data.
  apply (tracked_bind _ id pdf_sink); [apply tracked_deliver|].
  intros k. apply (tracked_ret _ pdf_sink (mkPdf _ k)).
Qed.

Lemma Part001_flush_fst p :
  match (Part001.flush p).1 with
  | Ok p' => pdf_doc p' = pdf_doc p
  | Throw e => e = SizeLimitExceeded
  end.
Proof.
  unfold Part001.flush, Part001.on_data.
  pose proof (deliver_fst Part001.MAX_PDF_SIZE (buffers (pdf_sink p)) (mkSink [] 0)) as H.
  destruct (deliver _ _ _) as [[k|e] t]; simpl in *; [reflexivity | exact H].
Qed.

Lemma Part001_flush_data p : Forall is_data (Part001.flush p).2.
Proof.
  unfold Part001.flush, Part001.on_data.
  apply bind_trace_Forall; [apply deliver_data | constructor].
Qed.

(** The assembly of part_001 is the flush of the document written. *)
Lemma Part001_assemble_flush imgs :
  exists k,
    Part001.write_pdf E imgs = (Ok (mkPdf (map Part001_page_of imgs) k), [])
    /\ Part001.assemble E imgs
       = (pdfDoc ← Part001.flush (mkPdf (map Part001_page_of imgs) k);
          mret (collect pdfDoc)).
Proof.
  destruct (Part001_write_pdf_pages imgs) as [k Hw]. exists k. split; [exact Hw|].
  unfold Part001.assemble. rewrite Hw, bind_ok_nil. reflexivity.
Qed.

Lemma Part001_assembled imgs : assembled Part001.MAX_PDF_SIZE (Part001.assemble E imgs).
Proof.
  destruct (Part001_assemble_flush imgs) as (k & _ & ->).
  apply assembled_collect; [unfold Part001.MAX_PDF_SIZE; lia|].
  apply Part001_flush_tracked.
Qed.

Lemma Part001_assemble_pages imgs pdf doc :
  (Part001.assemble E imgs).1 = Ok (pdf, doc) -> doc = map Part001_page_of imgs.
Proof.
  destruct (Part001_assemble_flush imgs) as (k & _ & ->).
  pose proof (Part001_flush_fst (mkPdf (map Part001_page_of imgs) k)) as Hf.
  destruct (Part001.flush _) as [[p'|e] t]; simpl in *; [|discriminate].
  intros [= _ <-]. exact Hf.
Qed.

(** part_001 assembles without a call to sharp: the chunks delivered are
    all its trace holds. *)
Lemma Part001_assemble_data imgs : Forall is_data (Part001.assemble E imgs).2.
Proof.
  destruct (Part001_assemble_flush imgs) as (k & _ & ->).
  apply bind_trace_Forall; [apply Part001_flush_data | constructor].
Qed.

(** The ways /convert of part_001 ends on a session with images.  What the
    listener throws during the flush is caught by nobody. *)
Lemma Part001_convert_cases now s :
  Part001.images s <> [] ->
  if reply_ok E MsgCreatingPdf then
    match Part001.assemble E (Part001.images s) with
    | (Ok (pdf, _), t) =>
        let sent := ESendDocument pdf (ImagesStampedPdf now) None in
        if replyWithDocument_ok E pdf then
          Part001.convert E now s
          = (Part001.set_images s [], EReply MsgCreatingPdf :: t ++ [sent])
        else
          Part001.convert E now s
          = (s, EReply MsgCreatingPdf :: t ++ [sent; EReply (MsgPdfFailed SendFailed)])
    | (Throw e, t) =>
        Part001.convert E now s = (s, EReply MsgCreatingPdf :: t ++ [EUncaught e])
    end
  else
    Part001.convert E now s
    = (s, [EReply MsgCreatingPdf; EReply (MsgPdfFailed SendFailed)]).
Proof.
  intros Hne. unfold Part001.convert. rewrite (len_nonzero _ Hne).
  destruct (Part001_assemble_flush (Part001.images s)) as (k & Hw & ->).
  rewrite Hw. unfold await_reply, call.
  destruct (reply_ok E MsgCreatingPdf); run_handler; [|reflexivity].
  destruct (Part001.flush _) as [[p'|e] t]; simpl; [|reflexivity].
  destruct (replyWithDocument_ok E _); simpl; rewrite ?app_nil_r; reflexivity.
Qed.
End Part001Pages.

(** An assembly whose trace stays within the limit did not stop on the
    limit. *)
Lemma assembled_within limit (m : M (Buffer * Doc)) :
  assembled limit m -> overflows limit 0 m.2 = false -> m.1 <> Throw SizeLimitExceeded.
Proof.
  intros [_ Hm] Hov Heq. rewrite Heq in Hm. destruct Hm as (t1 & c & Ht & _ & Hlt).
  assert (Htrue : overflows limit 0 m.2 = true).
  { apply overflows_true_iff. exists t1, c, []. split; [assumption | lia]. }
  congruence.
Qed.

(** ** Batches *)

Lemma Index_ingest_all_images E files : forall s imgs,
  mapM (Index_normalized E) files = Some imgs ->
  len (Index.images s) + len files <= Index.MAX_IMAGES_PER_USER ->
  Index.images (Index_ingest_all E s files) = Index.images s ++ imgs.
Proof.
  induction files as [|f files IH]; intros s imgs Hm Hlen.
  - simpl in Hm. injection Hm as <-. simpl. rewrite app_nil_r. reflexivity.
  - rewrite mapM_cons_eq in Hm.
    destruct (Index_normalized E f) as [img|] eqn:Hf; [|discriminate]. simpl in Hm.
    destruct (mapM (Index_normalized E) files) as [imgs'|] eqn:Hfs; [|discriminate].
    injection Hm as <-.
    change (Index_ingest_all E s (f :: files))
      with (Index_ingest_all E (Index.processImage E s (Some f)).1 files).
    assert (Hstep : (Index.processImage E s (Some f)).1
                    = Index.set_images s (Index.images s ++ [img])).
    { rewrite Index_processImage_cases.
      assert (Hroom : (Index.MAX_IMAGES_PER_USER <=? len (Index.images s)) = false).
      { apply Z.leb_gt. unfold len in *. simpl length in Hlen. lia. }
      rewrite Hroom. unfold Index_normalized in Hf. simpl.
      destruct (fetchFile E f) as [raw|]; [|discriminate]. simpl in Hf.
      rewrite Hf. reflexivity. }
    rewrite Hstep, (IH _ imgs' eq_refl).
    + simpl. rewrite <- app_assoc. reflexivity.
    + simpl. unfold len in *. rewrite length_app. simpl length in *. lia.
Qed.

Lemma Part001_ingest_all_images E files : forall s imgs,
  mapM (Part001_normalized E) files = Some imgs ->
  len (Part001.images s) + len files <= Part001.MAX_IMAGES ->
  Part001.images (Part001_ingest_all E s files) = Part001.images s ++ imgs.
Proof.
  induction files as [|f files IH]; intros s imgs Hm Hlen.
  - simpl in Hm. injection Hm as <-. simpl. rewrite app_nil_r. reflexivity.
  - rewrite mapM_cons_eq in Hm.
    destruct (Part001_normalized E f) as [img|] eqn:Hf; [|discriminate]. simpl in Hm.
    destruct (mapM (Part001_normalized E) files) as [imgs'|] eqn:Hfs; [|discriminate].
    injection Hm as <-.
    change (Part001_ingest_all E s (f :: files))
      with (Part001_ingest_all E (Part001.processImage E s (Some f)).1 files).
    assert (Hstep : (Part001.processImage E s (Some f)).1
                    = Part001.set_images s (Part001.images s ++ [img])).
    { rewrite Part001_processImage_cases.
      assert (Hroom : (Part001.MAX_IMAGES <=? len (Part001.images s)) = false).
      { apply Z.leb_gt. unfold len in *. simpl length in Hlen. lia. }
      rewrite Hroom. unfold Part001_normalized in Hf. simpl.
      destruct (fetchFile E f) as [raw|]; [|discriminate]. simpl in Hf.
      destruct (sharp_jpeg E raw) as [jpg|]; [|discriminate]. simpl in Hf.
      destruct (sharp_metadata E jpg) as [size|]; [|discriminate]. simpl in Hf.
      injection Hf as <-. reflexivity. }
    rewrite Hstep, (IH _ imgs' eq_refl).
    + simpl. rewrite <- app_assoc. reflexivity.
    + simpl. unfold len in *. rewrite length_app. simpl length in *. lia.
Qed.

(** ** The session table *)

Lemma Index_convert_lastActive E s :
  Index.lastActive (Index.convert E s).1 = Index.lastActive s.
Proof.
  destruct (Index.images s) as [|img rest] eqn:Himgs.
  - unfold Index.convert. rewrite Himgs. reflexivity.
  - assert (Hne : Index.images s <> []) by (rewrite Himgs; discriminate).
    pose proof (Index_convert_cases E s Hne) as Hc.
    destruct (Index.assemble E (Index.images s)) as [[[pdf doc]|e] t].
    + simpl in Hc. destruct (replyWithDocument_ok E pdf); rewrite Hc; reflexivity.
    + rewrite Hc. reflexivity.
Qed.

Lemma Index_processImage_lastActive E s file :
  Index.lastActive (Index.processImage E s file).1 = Index.lastActive s.
Proof.
  rewrite Index_processImage_cases.
  destruct (_ <=? _); [reflexivity|].
  destruct (file ≫= fetchFile E) as [raw|]; [|reflexivity].
  destruct (sharp_jpeg E raw); reflexivity.
Qed.

Lemma Index_dispatch_lastActive E s u :
  Index.lastActive (Index.dispatch E s u).1 = Index.lastActive s.
Proof.
  destruct u; simpl; try reflexivity.
  - apply Index_convert_lastActive.
  - apply Index_processImage_lastActive.
  - unfold Index.on_document. destruct (Index.accepted doc); [|reflexivity].
    apply Index_processImage_lastActive.
Qed.

Lemma Index_handleUpdate_lookup E now userId u m :
  (Index.handleUpdate E now userId u m).1
  = <[userId := (Index.dispatch E (Index.middleware now userId m) u).1]> m.
Proof.
  unfold Index.handleUpdate. destruct (Index.dispatch E _ u). reflexivity.
Qed.

(** Every session of a reachable table was last active after the epoch. *)
Lemma Index_reachable_lastActive E m :
  Index.reachable E m ->
  forall userId s, m !! userId = Some s -> 0 < Index.lastActive s.
Proof.
  induction 1 as [|now uid u m Hnow Hm IH|now m Hm IH
                  |uid s0 x m Hm IH Hs0|uid s0 m Hm IH Hs0]; intros userId s Hs.
  - rewrite lookup_empty in Hs. discriminate.
  - rewrite Index_handleUpdate_lookup in Hs.
    destruct (decide (uid = userId)) as [->|Hne].
    + rewrite lookup_insert_eq in Hs. injection Hs as <-.
      rewrite Index_dispatch_lastActive. unfold Index.middleware.
      destruct (m !! userId); simpl; assumption.
    + rewrite lookup_insert_ne in Hs by assumption. eapply IH; eassumption.
  - unfold Index.cleanupSessions in Hs.
    apply map_lookup_filter_Some in Hs as [Hs _]. eapply IH; eassumption.
  - destruct (decide (uid = userId)) as [->|Hne].
    + rewrite lookup_insert_eq in Hs. injection Hs as <-. simpl.
      eapply IH; eassumption.
    + rewrite lookup_insert_ne in Hs by assumption. eapply IH; eassumption.
  - destruct (decide (uid = userId)) as [->|Hne].
    + rewrite lookup_insert_eq in Hs. injection Hs as <-. simpl.
      eapply IH; eassumption.
    + rewrite lookup_insert_ne in Hs by assumption. eapply IH; eassumption.
Qed.

Lemma Index_cleanup_lookup now (m : gmap Z Index.Session) userId :
  Index.cleanupSessions now m !! userId
  = match m !! userId with
    | Some s => if Index.expired now s then None else Some s
    | None => None
    end.
Proof.
  unfold Index.cleanupSessions. rewrite map_lookup_filter.
  destruct (m !! userId) as [s|]; simpl; [|reflexivity].
  destruct (Index.expired now s) eqn:Hx; reflexivity.
Qed.

(** ** Extensions *)

Lemma split_dot_nonempty name : Index.split_dot name <> [].
Proof.
  destruct name as [|c rest]; simpl; [discriminate|].
  destruct (Ascii.eqb c "."); [discriminate|].
  destruct (Index.split_dot rest); discriminate.
Qed.

Lemma split_dot_no_dot name : has_dot name = false -> Index.split_dot name = [name].
Proof.
  induction name as [|c rest IH]; simpl; [reflexivity|].
  destruct (Ascii.eqb c "."); simpl; [discriminate|].
  intros H. rewrite (IH H). reflexivity.
Qed.

Lemma split_dot_app stem ext :
  Index.split_dot (String.append stem (String "."%char ext))
  = Index.split_dot stem ++ Index.split_dot ext.
Proof.
  induction stem as [|c rest IH]; simpl; [reflexivity|].
  destruct (Ascii.eqb c "."); simpl; rewrite IH; [reflexivity|].
  pose proof (split_dot_nonempty rest) as Hne.
  destruct (Index.split_dot rest); [contradiction | reflexivity].
Qed.

Lemma join_split_dot name : join_dot (Index.split_dot name) = name.
Proof.
  induction name as [|c rest IH]; simpl; [reflexivity|].
  pose proof (split_dot_nonempty rest) as Hne.
  destruct (Ascii.eqb c ".") eqn:Hc.
  - apply Ascii.eqb_eq in Hc. subst c.
    destruct (Index.split_dot rest) as [|p ps] eqn:Hs; [contradiction|].
    simpl in *. rewrite IH. reflexivity.
  - destruct (Index.split_dot rest) as [|p ps] eqn:Hs; [contradiction|].
    destruct ps; simpl in *; rewrite <- IH; reflexivity.
Qed.

Lemma split_dot_pieces name : Forall (fun p => has_dot p = false) (Index.split_dot name).
Proof.
  induction name as [|c rest IH]; simpl; [repeat constructor|].
  destruct (Ascii.eqb c ".") eqn:Hc; [constructor; [reflexivity | assumption]|].
  destruct (Index.split_dot rest) as [|p ps]; [repeat constructor; simpl; rewrite Hc; reflexivity|].
  inversion IH; subst. constructor; [|assumption]. simpl. rewrite Hc. assumption.
Qed.

Lemma append_String c p x : String.append (String c p) x = String c (String.append p x).
Proof. reflexivity. Qed.

Lemma join_dot_snoc init ext :
  init <> [] -> join_dot (init ++ [ext]) = String.append (join_dot init) (String "."%char ext).
Proof.
  induction init as [|p ps IH]; intros Hne; [contradiction|].
  destruct ps as [|q qs]; [reflexivity|].
  change (join_dot ((p :: q :: qs) ++ [ext]))
    with (String.append p (String "."%char (join_dot ((q :: qs) ++ [ext])))).
  rewrite IH by discriminate.
  change (join_dot (p :: q :: qs))
    with (String.append p (String "."%char (join_dot (q :: qs)))).
  generalize (join_dot (q :: qs)). intros j.
  clear IH Hne. induction p as [|c p IHp]; [reflexivity|].
  rewrite !append_String, IHp. reflexivity.
Qed.

(** [name.split('.').pop()] is the extension of [name]. *)
Lemma last_split_dot name ext :
  last (Index.split_dot name) = Some ext <-> is_extension name ext.
Proof.
  split.
  - intros Hl. apply last_Some in Hl as [init Hs].
    pose proof (split_dot_pieces name) as Hp. rewrite Hs in Hp.
    apply Forall_app in Hp as [_ Hp]. inversion Hp; subst.
    split; [assumption|].
    pose proof (join_split_dot name) as Hj. rewrite Hs in Hj.
    destruct init as [|p ps]; [left; symmetry; exact Hj|].
    right. exists (join_dot (p :: ps)). rewrite <- Hj. apply join_dot_snoc. discriminate.
  - intros [Hnd [-> | [stem ->]]].
    + rewrite split_dot_no_dot by assumption. reflexivity.
    + rewrite split_dot_app, (split_dot_no_dot ext) by assumption. apply last_snoc.
Qed.

Lemma includes_In l x : Index.includes l x = true <-> In x l.
Proof.
  unfold Index.includes. rewrite existsb_exists. split.
  - intros (y & Hy & Heq). apply String.eqb_eq in Heq. subst. assumption.
  - intros H. exists x. split; [assumption | apply String.eqb_refl].
Qed.

(** ** How a run of /convert ends *)

Lemma last_cons_snoc {A} (a x : A) l : last (a :: l ++ [x]) = Some x.
Proof. rewrite app_comm_cons. apply last_snoc. Qed.

Lemma last_cons_snoc2 {A} (a y x : A) l : last (a :: l ++ [y; x]) = Some x.
Proof.
  change [y; x] with ([y] ++ [x]). rewrite app_assoc, app_comm_cons. apply last_snoc.
Qed.

Lemma assembled_overflow limit (m : M (Buffer * Doc)) :
  assembled limit m ->
  overflows limit 0 m.2 = true ->
  m.1 = Throw SizeLimitExceeded
  /\ exists t1 c, m.2 = t1 ++ [EData c]
       /\ overflows limit 0 t1 = false
       /\ limit < data_total t1 + Buffer_length c.
Proof.
  intros [_ Hm] Hov. destruct m as [[[pdf doc]|e] t]; simpl in *.
  - destruct Hm as (Hf & _). congruence.
  - destruct e; try congruence. split; [reflexivity | exact Hm].
Qed.

Lemma assembled_ok limit (m : M (Buffer * Doc)) pdf doc :
  assembled limit m -> m.1 = Ok (pdf, doc) -> Buffer_length pdf <= limit.
Proof. intros [_ Hm] Heq. rewrite Heq in Hm. apply Hm. Qed.

(** ** /convert of part_001 when the limit is passed *)

(** The running total passes the limit during a /convert of part_001: the
    chunk that did it is followed by the uncaught exception and by nothing
    else; no reply tells of the failure, no document is sent, the session
    is the one the handler was given. *)
Lemma Part001_convert_overflow E now s :
  overflows Part001.MAX_PDF_SIZE 0 (Part001.convert E now s).2 = true ->
  (Part001.convert E now s).1 = s
  /\ sent_documents (Part001.convert E now s).2 = []
  /\ (forall e, ~ In (EReply (MsgPdfFailed e)) (Part001.convert E now s).2)
  /\ exists t1 c,
       (Part001.convert E now s).2 = t1 ++ [EData c; EUncaught SizeLimitExceeded]
       /\ overflows Part001.MAX_PDF_SIZE 0 t1 = false
       /\ Part001.MAX_PDF_SIZE < data_total t1 + Buffer_length c.
Proof.
  intros Hov.
  destruct (Part001.images s) as [|img rest] eqn:Himgs.
  { unfold Part001.convert in Hov. rewrite Himgs in Hov. discriminate. }
  assert (Hne : Part001.images s <> []) by (rewrite Himgs; discriminate).
  pose proof (Part001_convert_cases E now s Hne) as Hc.
  pose proof (Part001_assembled E (Part001.images s)) as Ha.
  destruct (reply_ok E MsgCreatingPdf).
  2: { rewrite Hc in Hov. discriminate. }
  destruct (Part001.assemble E (Part001.images s)) as [[[pdf doc]|e] t] eqn:Hasm.
  - exfalso. simpl in Hc. destruct Ha as [Hev (Hov' & _)]. simpl in Hov'.
    destruct (replyWithDocument_ok E pdf); rewrite Hc in Hov; simpl in Hov;
      rewrite overflows_app, Hov' in Hov; simpl in Hov; discriminate.
  - rewrite Hc in *. clear Hc. destruct Ha as [Hev Hm]. simpl in Hev, Hm, Hov.
    rewrite overflows_app in Hov. simpl in Hov. rewrite orb_false_r in Hov.
    destruct e; try congruence.
    destruct Hm as (t1 & c & -> & Hov1 & Hlt).
    simpl. split; [reflexivity|]. split.
    { rewrite sent_documents_app, (writer_trace_sends_nothing _ Hev). reflexivity. }
    split.
    { intros e [Hin | Hin]; [discriminate|].
      apply in_app_or in Hin as [Hin | [Hin | []]]; [|discriminate].
      eapply writer_trace_no_reply; eassumption. }
    exists (EReply MsgCreatingPdf :: t1), c. rewrite <- app_assoc.
    repeat split; assumption.
Qed.

Lemma Part001_convert_sent_within E now s pdf :
  In pdf (sent_documents (Part001.convert E now s).2) ->
  Buffer_length pdf <= Part001.MAX_PDF_SIZE.
Proof.
  destruct (Part001.images s) as [|img rest] eqn:Himgs.
  { unfold Part001.convert. rewrite Himgs. simpl. intros []. }
  assert (Hne : Part001.images s <> []) by (rewrite Himgs; discriminate).
  pose proof (Part001_convert_cases E now s Hne) as Hc.
  pose proof (Part001_assembled E (Part001.images s)) as Ha.
  destruct (reply_ok E MsgCreatingPdf).
  2: { rewrite Hc. simpl. intros []. }
  destruct (Part001.assemble E (Part001.images s)) as [[[pdf' doc]|e] t] eqn:Hasm;
    destruct Ha as [Hev Hm]; simpl in Hev, Hm.
  - destruct Hm as (_ & _ & _ & Hle). simpl in Hc.
    destruct (replyWithDocument_ok E pdf'); rewrite Hc; simpl;
      rewrite sent_documents_app, (writer_trace_sends_nothing _ Hev); simpl;
      intros [<- | []]; exact Hle.
  - rewrite Hc. simpl.
    rewrite sent_documents_app, (writer_trace_sends_nothing _ Hev). simpl. intros [].
Qed.

(** * The claims *)

(** C1.  In index.js a document that the assembly returns is at most
    50 MiB long; an assembly during which the running total of the chunks
    exceeds the limit throws [SizeLimitExceeded] right after the chunk that
    did it, which is the last event of its trace, so that no further page
    is written; and a /convert during which that happens replies with the
    failure right after that chunk and sends no document.  In part_001 it
    is otherwise: every page is written and the document is ended before
    one chunk has reached the listener, and when the running total then
    exceeds the limit of 45 MiB the listener's throw is caught by nobody:
    the chunk is followed by the uncaught exception alone, no failure is
    reported, and the session is as it was.  part_001 sends no document
    then either, and in both variants whatever document is returned or sent
    is within the limit. *)
Theorem C1_size_limit_aborts_assembly (E : Env) :
  ((forall imgs pdf doc,
      (Index.assemble E imgs).1 = Ok (pdf, doc) ->
      Buffer_length pdf <= Index.MAX_PDF_SIZE)
   /\ (forall imgs,
      overflows Index.MAX_PDF_SIZE 0 (Index.assemble E imgs).2 = true ->
      (Index.assemble E imgs).1 = Throw SizeLimitExceeded
      /\ exists t1 c, (Index.assemble E imgs).2 = t1 ++ [EData c]
           /\ overflows Index.MAX_PDF_SIZE 0 t1 = false
           /\ Index.MAX_PDF_SIZE < data_total t1 + Buffer_length c)
   /\ (forall s,
      overflows Index.MAX_PDF_SIZE 0 (Index.convert E s).2 = true ->
      sent_documents (Index.convert E s).2 = []
      /\ exists t1 c,
           (Index.convert E s).2
           = t1 ++ [EData c; EReply (MsgPdfFailed SizeLimitExceeded)]
           /\ overflows Index.MAX_PDF_SIZE 0 t1 = false
           /\ Index.MAX_PDF_SIZE < data_total t1 + Buffer_length c)
   /\ (forall s pdf,
      In pdf (sent_documents (Index.convert E s).2) ->
      Buffer_length pdf <= Index.MAX_PDF_SIZE))
  /\
  ((forall imgs pdf doc,
      (Part001.assemble E imgs).1 = Ok (pdf, doc) ->
      Buffer_length pdf <= Part001.MAX_PDF_SIZE)
   /\ (forall imgs,
      exists pdfDoc, Part001.write_pdf E imgs = (Ok pdfDoc, [])
                     /\ pdf_doc pdfDoc = map Part001_page_of imgs)
   /\ (forall now s,
      overflows Part001.MAX_PDF_SIZE 0 (Part001.convert E now s).2 = true ->
      (Part001.convert E now s).1 = s
      /\ sent_documents (Part001.convert E now s).2 = []
      /\ (forall e, ~ In (EReply (MsgPdfFailed e)) (Part001.convert E now s).2)
      /\ exists t1 c,
           (Part001.convert E now s).2
           = t1 ++ [EData c; EUncaught SizeLimitExceeded]
           /\ overflows Part001.MAX_PDF_SIZE 0 t1 = false
           /\ Part001.MAX_PDF_SIZE < data_total t1 + Buffer_length c)
   /\ (forall now s pdf,
      In pdf (sent_documents (Part001.convert E now s).2) ->
      Buffer_length pdf <= Part001.MAX_PDF_SIZE)).
Proof.
  split; [repeat split | split; [|split; [|split]]].
  - intros imgs pdf doc. apply assembled_ok, Index_assembled.
  - eapply assembled_overflow; [apply Index_assembled | assumption].
  - eapply assembled_overflow; [apply Index_assembled | assumption].
  - apply (Index_convert_size_guarded E s). assumption.
  - apply (Index_convert_size_guarded E s). assumption.
  - intros s pdf. apply (Index_convert_size_guarded E s).
  - intros imgs pdf doc. apply assembled_ok, Part001_assembled.
  - intros imgs. destruct (Part001_write_pdf_pages E imgs) as [k Hw].
    eexists. split; [exact Hw | reflexivity].
  - intros now s. apply Part001_convert_overflow.
  - intros now s pdf. apply Part001_convert_sent_within.
Qed.

(** One image whose page alone is over 50 MiB.  /convert of index.js stops
    on that chunk, reports the failure and sends nothing.  /convert of
    part_001 has its listener throw on the same chunk, after the whole
    document was written: nothing is sent, nothing is reported. *)
Lemma C1_size_limit_aborts_assembly_witness :
  (overflows Index.MAX_PDF_SIZE 0
     (Index.convert (sample_env huge true) Index_one_image).2 = true
   /\ sent_documents (Index.convert (sample_env huge true) Index_one_image).2 = []
   /\ exists t1 c,
        (Index.convert (sample_env huge true) Index_one_image).2
        = t1 ++ [EData c; EReply (MsgPdfFailed SizeLimitExceeded)]
        /\ overflows Index.MAX_PDF_SIZE 0 t1 = false
        /\ Index.MAX_PDF_SIZE < data_total t1 + Buffer_length c)
  /\
  (overflows Part001.MAX_PDF_SIZE 0
     (Part001.convert (sample_env huge true) 1700000000500 Part001_one_image).2 = true
   /\ (Part001.convert (sample_env huge true) 1700000000500 Part001_one_image).1
      = Part001_one_image
   /\ sent_documents
        (Part001.convert (sample_env huge true) 1700000000500 Part001_one_image).2 = []
   /\ (forall e, ~ In (EReply (MsgPdfFailed e))
                    (Part001.convert (sample_env huge true) 1700000000500
                       Part001_one_image).2)
   /\ exists t1 c,
        (Part001.convert (sample_env huge true) 1700000000500 Part001_one_image).2
        = t1 ++ [EData c; EUncaught SizeLimitExceeded]
        /\ overflows Part001.MAX_PDF_SIZE 0 t1 = false
        /\ Part001.MAX_PDF_SIZE < data_total t1 + Buffer_length c).
Proof.
  assert (Hi : overflows Index.MAX_PDF_SIZE 0
                 (Index.convert (sample_env huge true) Index_one_image).2 = true)
    by (vm_compute; reflexivity).
  assert (Hp : overflows Part001.MAX_PDF_SIZE 0
                 (Part001.convert (sample_env huge true) 1700000000500
                    Part001_one_image).2 = true)
    by (vm_compute; reflexivity).
  split; (split; [assumption|]).
  - exact (proj1 (proj2 (proj2 (proj1
             (C1_size_limit_aborts_assembly (sample_env huge true)))))
             Index_one_image Hi).
  - exact (proj1 (proj2 (proj2 (proj2
             (C1_size_limit_aborts_assembly (sample_env huge true)))))
             1700000000500 Part001_one_image Hp).
Defined.

(** The same /convert of part_001, run: after "Creating PDF..." the header,
    the page and the image reach the listener, which throws on the image;
    the handler is not resumed. *)
Lemma C1_counterexample :
  Part001.write_pdf (sample_env huge true) (Part001.images Part001_one_image)
  = (Ok (mkPdf [Part001_page_of (Part001.mkStored sample_jpeg 640 480)]
               (mkSink [Buffer_alloc 15 Byte.x25; Buffer_alloc 40 Byte.x20;
                        Buffer_alloc huge Byte.x00; Buffer_alloc 120 Byte.x0a]
                       52428976)), [])
  /\ Part001.convert (sample_env huge true) 1700000000500 Part001_one_image
     = (Part001_one_image,
        [EReply MsgCreatingPdf; EData (Buffer_alloc 15 Byte.x25);
         EData (Buffer_alloc 40 Byte.x20); EData (Buffer_alloc huge Byte.x00);
         EUncaught SizeLimitExceeded]).
Proof. split; vm_compute; reflexivity. Qed.




(** C3.  In both variants a session that holds 50 images answers the next
    image with the capacity message and does nothing else: the session is
    the same, nothing is downloaded, nothing is decoded.  So does the
    session a batch of 50 successful ingests leaves behind. *)
Theorem C3_full_session_rejects_the_next_image (E : Env) :
  (forall s file, len (Index.images s) = Index.MAX_IMAGES_PER_USER ->
     Index.processImage E s file
     = (s, [EReply (MsgMaxImages Index.MAX_IMAGES_PER_USER)])
     /\ fetches (Index.processImage E s file).2 = []
     /\ decodes (Index.processImage E s file).2 = [])
  /\ (forall s files imgs file,
     Index.images s = [] ->
     mapM (Index_normalized E) files = Some imgs ->
     len files = Index.MAX_IMAGES_PER_USER ->
     Index.processImage E (Index_ingest_all E s files) file
     = (Index_ingest_all E s files, [EReply (MsgMaxImages Index.MAX_IMAGES_PER_USER)]))
  /\ (forall s file, len (Part001.images s) = Part001.MAX_IMAGES ->
     Part001.processImage E s file
     = (s, [EReply (MsgMaxImages Part001.MAX_IMAGES)])
     /\ fetches (Part001.processImage E s file).2 = []
     /\ decodes (Part001.processImage E s file).2 = [])
  /\ (forall s files imgs file,
     Part001.images s = [] ->
     mapM (Part001_normalized E) files = Some imgs ->
     len files = Part001.MAX_IMAGES ->
     Part001.processImage E (Part001_ingest_all E s files) file
     = (Part001_ingest_all E s files, [EReply (MsgMaxImages Part001.MAX_IMAGES)])).
Proof.
  assert (Hi : forall s file, len (Index.images s) = Index.MAX_IMAGES_PER_USER ->
     Index.processImage E s file
     = (s, [EReply (MsgMaxImages Index.MAX_IMAGES_PER_USER)])).
  { intros s file Hfull. rewrite Index_processImage_cases, Hfull. reflexivity. }
  assert (Hp : forall s file, len (Part001.images s) = Part001.MAX_IMAGES ->
     Part001.processImage E s file
     = (s, [EReply (MsgMaxImages Part001.MAX_IMAGES)])).
  { intros s file Hfull. rewrite Part001_processImage_cases, Hfull. reflexivity. }
  repeat split.
  - apply Hi. assumption.
  - rewrite Hi by assumption. reflexivity.
  - rewrite Hi by assumption. reflexivity.
  - intros s files imgs file Hs Hm Hlen. apply Hi.
    rewrite (Index_ingest_all_images E files s imgs Hm).
    + rewrite Hs. simpl. unfold len in *. rewrite <- (length_mapM _ _ _ Hm). exact Hlen.
    + rewrite Hs. unfold len in *. simpl. lia.
  - apply Hp. assumption.
  - rewrite Hp by assumption. reflexivity.
  - rewrite Hp by assumption. reflexivity.
  - intros s files imgs file Hs Hm Hlen. apply Hp.
    rewrite (Part001_ingest_all_images E files s imgs Hm).
    + rewrite Hs. simpl. unfold len in *. rewrite <- (length_mapM _ _ _ Hm). exact Hlen.
    + rewrite Hs. unfold len in *. simpl. lia.
Qed.

Lemma C3_full_session_rejects_the_next_image_witness :
  len (Index.images Index_full) = Index.MAX_IMAGES_PER_USER
  /\ Index.processImage (sample_env 1000 true) Index_full (Some "photo_51"%string)
     = (Index_full, [EReply (MsgMaxImages Index.MAX_IMAGES_PER_USER)])
  /\ fetches (Index.processImage (sample_env 1000 true) Index_full
                (Some "photo_51"%string)).2 = []
  /\ decodes (Index.processImage (sample_env 1000 true) Index_full
                (Some "photo_51"%string)).2 = [].
Proof.
  split; [reflexivity|].
  apply (proj1 (C3_full_session_rejects_the_next_image (sample_env 1000 true))).
  reflexivity.
Defined.

(** ** A batch, assembled *)

Lemma Index_assemble_batch E imgs decoded :
  imgs <> [] ->
  mapM (sharp_toBuffer E) imgs = Some decoded ->
  overflows Index.MAX_PDF_SIZE 0 (Index.assemble E imgs).2 = false ->
  exists pdf, (Index.assemble E imgs).1 = Ok (pdf, map Index_page_of decoded).
Proof.
  intros Hne Hdec Hov.
  pose proof (assembled_within _ _ (Index_assembled E imgs) Hov) as Hsize.
  pose proof (Index_write_pdf_pages E imgs Hne) as Hp.
  rewrite Index_assemble_fst in *.
  destruct (Index.write_pdf E imgs).1 as [p|e].
  - destruct Hp as (decoded' & Hdec' & Hdoc). rewrite Hdec in Hdec'.
    injection Hdec' as <-. exists (Buffer_concat (buffers (pdf_sink p))).
    unfold collect. rewrite Hdoc. reflexivity.
  - destruct Hp as [-> | [_ Hnone]]; [contradiction | congruence].
Qed.

Lemma Part001_assemble_batch E imgs :
  overflows Part001.MAX_PDF_SIZE 0 (Part001.assemble E imgs).2 = false ->
  exists pdf, (Part001.assemble E imgs).1 = Ok (pdf, map Part001_page_of imgs).
Proof.
  intros Hov.
  pose proof (assembled_within _ _ (Part001_assembled E imgs) Hov) as Hsize.
  destruct (Part001_assemble_flush E imgs) as (k & _ & Ha).
  pose proof (Part001_flush_fst (mkPdf (map Part001_page_of imgs) k)) as Hf.
  rewrite Ha in *. clear Ha.
  destruct (Part001.flush _) as [[p'|e] t]; simpl in *.
  - exists (Buffer_concat (buffers (pdf_sink p'))).
    unfold collect. rewrite Hf. reflexivity.
  - subst e. contradiction.
Qed.

(** the document a /convert hands to Telegram is the one assembled *)
Lemma Index_convert_sends E s pdf doc :
  Index.images s <> [] ->
  (Index.assemble E (Index.images s)).1 = Ok (pdf, doc) ->
  sent_documents (Index.convert E s).2 = [pdf].
Proof.
  intros Hne Hok. pose proof (Index_convert_cases E s Hne) as Hc.
  pose proof (Index_assembled E (Index.images s)) as [Hev _].
  destruct (Index.assemble E (Index.images s)) as [r t]. simpl in Hok, Hev. subst r.
  simpl in Hc.
  destruct (replyWithDocument_ok E pdf); rewrite Hc; simpl;
    rewrite sent_documents_app, (writer_trace_sends_nothing _ Hev); reflexivity.
Qed.

Lemma Part001_convert_sends E now s pdf doc :
  Part001.images s <> [] ->
  reply_ok E MsgCreatingPdf = true ->
  (Part001.assemble E (Part001.images s)).1 = Ok (pdf, doc) ->
  sent_documents (Part001.convert E now s).2 = [pdf].
Proof.
  intros Hne Hreply Hok. pose proof (Part001_convert_cases E now s Hne) as Hc.
  rewrite Hreply in Hc.
  pose proof (Part001_assembled E (Part001.images s)) as [Hev _].
  destruct (Part001.assemble E (Part001.images s)) as [r t]. simpl in Hok, Hev. subst r.
  simpl in Hc.
  destruct (replyWithDocument_ok E pdf); rewrite Hc; simpl;
    rewrite sent_documents_app, (writer_trace_sends_nothing _ Hev); reflexivity.
Qed.

(** C4, as the code has it.  After a batch of n successful ingests into an
    empty session, 1 <= n <= 50, the session holds the n normalized images
    in the order of the ingests.  In index.js, when sharp reads each of
    them back and the writer's chunks stay within the limit, the assembly
    returns a document of n pages, page i holding image i as read back, and
    /convert hands that document to Telegram.  In part_001, when the
    writer's chunks stay within the limit, the assembly returns a document
    of n pages, page i made from stored image i, and /convert hands it to
    Telegram once its first reply went out. *)
Theorem C4_one_page_per_image_in_order (E : Env) :
  (forall s files imgs decoded,
     Index.images s = [] ->
     mapM (Index_normalized E) files = Some imgs ->
     1 <= len files <= Index.MAX_IMAGES_PER_USER ->
     mapM (sharp_toBuffer E) imgs = Some decoded ->
     overflows Index.MAX_PDF_SIZE 0 (Index.assemble E imgs).2 = false ->
     Index.images (Index_ingest_all E s files) = imgs
     /\ exists pdf,
          (Index.assemble E (Index.images (Index_ingest_all E s files))).1
          = Ok (pdf, map Index_page_of decoded)
          /\ length (map Index_page_of decoded) = length files
          /\ sent_documents (Index.convert E (Index_ingest_all E s files)).2 = [pdf])
  /\
  (forall now s files imgs,
     Part001.images s = [] ->
     mapM (Part001_normalized E) files = Some imgs ->
     1 <= len files <= Part001.MAX_IMAGES ->
     overflows Part001.MAX_PDF_SIZE 0 (Part001.assemble E imgs).2 = false ->
     Part001.images (Part001_ingest_all E s files) = imgs
     /\ exists pdf,
          (Part001.assemble E (Part001.images (Part001_ingest_all E s files))).1
          = Ok (pdf, map Part001_page_of imgs)
          /\ length (map Part001_page_of imgs) = length files
          /\ (reply_ok E MsgCreatingPdf = true ->
              sent_documents (Part001.convert E now (Part001_ingest_all E s files)).2
              = [pdf])).
Proof.
  split.
  - intros s files imgs decoded Hs Hm Hn Hdec Hov.
    assert (Himgs : Index.images (Index_ingest_all E s files) = imgs).
    { rewrite (Index_ingest_all_images E files s imgs Hm); rewrite Hs; [reflexivity|].
      unfold len in *. simpl. lia. }
    assert (Hne : imgs <> []).
    { intros ->. apply length_mapM in Hm. unfold len in Hn. simpl in Hm. lia. }
    split; [exact Himgs|]. rewrite Himgs.
    destruct (Index_assemble_batch E imgs decoded Hne Hdec Hov) as [pdf Hok].
    exists pdf. split; [exact Hok|]. split.
    + rewrite length_map, <- (length_mapM _ _ _ Hdec), <- (length_mapM _ _ _ Hm).
      reflexivity.
    + apply (Index_convert_sends E _ pdf (map Index_page_of decoded));
        rewrite Himgs; assumption.
  - intros now s files imgs Hs Hm Hn Hov.
    assert (Himgs : Part001.images (Part001_ingest_all E s files) = imgs).
    { rewrite (Part001_ingest_all_images E files s imgs Hm); rewrite Hs; [reflexivity|].
      unfold len in *. simpl. lia. }
    assert (Hne : imgs <> []).
    { intros ->. apply length_mapM in Hm. unfold len in Hn. simpl in Hm. lia. }
    split; [exact Himgs|]. rewrite Himgs.
    destruct (Part001_assemble_batch E imgs Hov) as [pdf Hok].
    exists pdf. split; [exact Hok|]. split.
    + rewrite length_map, <- (length_mapM _ _ _ Hm). reflexivity.
    + intros Hreply.
      apply (Part001_convert_sends E now _ pdf (map Part001_page_of imgs));
        rewrite ?Himgs; assumption.
Qed.

(** three photos, then /convert: three pages *)
Lemma C4_one_page_per_image_in_order_witness :
  Index.images (Index_ingest_all (sample_env 1000 true) Index_empty
                  ["photo_1"; "photo_2"; "photo_3"]%string)
  = [sample_jpeg; sample_jpeg; sample_jpeg]
  /\ exists pdf,
       (Index.assemble (sample_env 1000 true)
          (Index.images (Index_ingest_all (sample_env 1000 true) Index_empty
                           ["photo_1"; "photo_2"; "photo_3"]%string))).1
       = Ok (pdf, map Index_page_of [sample_jpeg; sample_jpeg; sample_jpeg])
       /\ length (map Index_page_of [sample_jpeg; sample_jpeg; sample_jpeg])
          = length ["photo_1"; "photo_2"; "photo_3"]%string
       /\ sent_documents
            (Index.convert (sample_env 1000 true)
               (Index_ingest_all (sample_env 1000 true) Index_empty
                  ["photo_1"; "photo_2"; "photo_3"]%string)).2 = [pdf].
Proof.
  apply (proj1 (C4_one_page_per_image_in_order (sample_env 1000 true))
           Index_empty ["photo_1"; "photo_2"; "photo_3"]%string
           [sample_jpeg; sample_jpeg; sample_jpeg]
           [sample_jpeg; sample_jpeg; sample_jpeg]).
  - reflexivity.
  - reflexivity.
  - vm_compute. split; discriminate.
  - reflexivity.
  - vm_compute. reflexivity.
Defined.

(** No ingest at all, then /convert: there is no document of zero pages,
    the bot answers that there are no images.  And one successful ingest of
    an image whose page passes the limit: no document either. *)
Lemma C4_counterexample :
  (Index.convert (sample_env 1000 true)
     (Index_ingest_all (sample_env 1000 true) Index_empty [])
   = (Index_empty, [EReply MsgNoImages])
   /\ Part001.convert (sample_env 1000 true) 1700000000500
        (Part001_ingest_all (sample_env 1000 true) Part001_empty [])
      = (Part001_empty, [EReply MsgNoImages]))
  /\
  (mapM (Index_normalized (sample_env huge true)) ["photo_1"%string] = Some [sample_jpeg]
   /\ Index.images (Index_ingest_all (sample_env huge true) Index_empty ["photo_1"%string])
      = [sample_jpeg]
   /\ (Index.assemble (sample_env huge true) [sample_jpeg]).1 = Throw SizeLimitExceeded
   /\ sent_documents
        (Index.convert (sample_env huge true)
           (Index_ingest_all (sample_env huge true) Index_empty ["photo_1"%string])).2
      = []).
Proof. repeat split; vm_compute; reflexivity. Qed.

(** ** After the delivery *)

Lemma Index_convert_delivered E s pdf doc :
  (Index.assemble E (Index.images s)).1 = Ok (pdf, doc) ->
  replyWithDocument_ok E pdf = true ->
  (Index.convert E s).1 = Index.set_images s [].
Proof.
  intros Hasm Hok. destruct (Index.images s) as [|img rest] eqn:Himgs.
  - unfold Index.convert. rewrite Himgs. simpl. destruct s; simpl in *. subst. reflexivity.
  - assert (Hne : Index.images s <> []) by (rewrite Himgs; discriminate).
    pose proof (Index_convert_cases E s Hne) as Hc. rewrite Himgs in Hc.
    destruct (Index.assemble E (img :: rest)) as [r t]. simpl in Hasm. subst r.
    simpl in Hc. rewrite Hok in Hc. rewrite Hc. reflexivity.
Qed.

Lemma Index_convert_refused E s pdf doc :
  Index.images s <> [] ->
  (Index.assemble E (Index.images s)).1 = Ok (pdf, doc) ->
  replyWithDocument_ok E pdf = false ->
  Index.convert E s
  = (s, EReply MsgCreatingPdf :: (Index.assemble E (Index.images s)).2
        ++ [ESendDocument pdf ImagesPdf (Some (len (Index.images s)));
            EReply (MsgPdfFailed SendFailed)]).
Proof.
  intros Hne Hasm Hok. pose proof (Index_convert_cases E s Hne) as Hc.
  destruct (Index.assemble E (Index.images s)) as [r t]. simpl in Hasm. subst r.
  simpl in Hc. rewrite Hok in Hc. exact Hc.
Qed.

Lemma Index_convert_empty E s :
  Index.images s = [] -> Index.convert E s = (s, [EReply MsgNoImages]).
Proof. intros H. unfold Index.convert. rewrite H. reflexivity. Qed.

Lemma Part001_convert_empty E now s :
  Part001.images s = [] -> Part001.convert E now s = (s, [EReply MsgNoImages]).
Proof. intros H. unfold Part001.convert. rewrite H. reflexivity. Qed.

(** C5, as the code has it.  In index.js a /convert whose assembly returns
    a document that Telegram takes leaves the session without images,
    however many it held; a /convert on what it left, whatever the
    collaborators then answer, replies that there are no images and changes
    nothing.  The same through the session table: after such an update
    /convert of a user, the user's entry has no images and the user's next
    /convert is answered with the no-images reply alone.  A /convert whose
    assembly returns a document that Telegram refuses leaves every image in
    the session: the failure is reported, the session is the one the
    handler was given, and the next /convert goes as it would have gone on
    that session. *)
Theorem C5_session_empty_after_successful_convert (E : Env) :
  (forall s pdf doc,
     (Index.assemble E (Index.images s)).1 = Ok (pdf, doc) ->
     replyWithDocument_ok E pdf = true ->
     Index.images (Index.convert E s).1 = []
     /\ forall E', Index.convert E' (Index.convert E s).1
                   = ((Index.convert E s).1, [EReply MsgNoImages]))
  /\
  (forall now userId m pdf doc,
     (Index.assemble E (Index.images (Index.middleware now userId m))).1 = Ok (pdf, doc) ->
     replyWithDocument_ok E pdf = true ->
     (exists s', (Index.handleUpdate E now userId Index.CmdConvert m).1 !! userId = Some s'
                 /\ Index.images s' = [])
     /\ forall E' now',
          (Index.handleUpdate E' now' userId Index.CmdConvert
             (Index.handleUpdate E now userId Index.CmdConvert m).1).2
          = [EReply MsgNoImages])
  /\
  (forall s pdf doc,
     Index.images s <> [] ->
     (Index.assemble E (Index.images s)).1 = Ok (pdf, doc) ->
     replyWithDocument_ok E pdf = false ->
     (Index.convert E s).1 = s
     /\ last (Index.convert E s).2 = Some (EReply (MsgPdfFailed SendFailed))
     /\ forall E', Index.convert E' (Index.convert E s).1 = Index.convert E' s).
Proof.
  split; [|split].
  - intros s pdf doc Hasm Hok.
    rewrite (Index_convert_delivered E s pdf doc Hasm Hok).
    split; [reflexivity|]. intros E'. apply Index_convert_empty. reflexivity.
  - intros now userId m pdf doc Hasm Hok.
    pose proof (Index_convert_delivered E _ pdf doc Hasm Hok) as Hs'.
    rewrite Index_handleUpdate_lookup. simpl Index.dispatch. rewrite Hs'.
    split.
    + eexists. rewrite lookup_insert_eq. split; reflexivity.
    + intros E' now'. unfold Index.handleUpdate. simpl Index.dispatch.
      rewrite Index_convert_empty; [reflexivity|].
      unfold Index.middleware at 1. rewrite lookup_insert_eq. reflexivity.
  - intros s pdf doc Hne Hasm Hok.
    rewrite (Index_convert_refused E s pdf doc Hne Hasm Hok).
    split; [reflexivity|]. split; [apply last_cons_snoc2 | reflexivity].
Qed.

Lemma C5_session_empty_after_successful_convert_witness :
  Index.images (Index.convert (sample_env 1000 true) Index_one_image).1 = []
  /\ forall E', Index.convert E' (Index.convert (sample_env 1000 true) Index_one_image).1
               = ((Index.convert (sample_env 1000 true) Index_one_image).1,
                  [EReply MsgNoImages]).
Proof.
  apply (proj1 (C5_session_empty_after_successful_convert (sample_env 1000 true))
           Index_one_image
           (Buffer_concat [Buffer_alloc 15 Byte.x25; Buffer_alloc 1000 Byte.x00;
                           Buffer_alloc 120 Byte.x0a])
           [Index_page_of sample_jpeg]).
  - vm_compute. reflexivity.
  - reflexivity.
Defined.

(** An assembly that succeeds and a delivery that fails: the assembly of
    the one image returns its document, Telegram refuses it, and the image
    is still in the session; the /convert that follows does not answer that
    there are no images, it assembles the image again and sends the
    document. *)
Lemma C5_counterexample :
  (Index.assemble (sample_env 1000 false) (Index.images Index_one_image)).1
  = Ok (Buffer_concat [Buffer_alloc 15 Byte.x25; Buffer_alloc 1000 Byte.x00;
                       Buffer_alloc 120 Byte.x0a],
        [Index_page_of sample_jpeg])
  /\ Index.images (Index.convert (sample_env 1000 false) Index_one_image).1 = [sample_jpeg]
  /\ Index.convert (sample_env 1000 true)
       (Index.convert (sample_env 1000 false) Index_one_image).1
     = (Index.set_images Index_one_image [],
        [EReply MsgCreatingPdf; EData (Buffer_alloc 15 Byte.x25);
         EDecode sample_jpeg; EData (Buffer_alloc 1000 Byte.x00);
         EData (Buffer_alloc 120 Byte.x0a);
         ESendDocument
           (Buffer_concat [Buffer_alloc 15 Byte.x25; Buffer_alloc 1000 Byte.x00;
                           Buffer_alloc 120 Byte.x0a])
           ImagesPdf (Some 1)]).
Proof. repeat split; vm_compute; reflexivity. Qed.

(** C6.  In both variants a /convert on a session without images replies
    that there are no images and does nothing else: the session is the one
    it was given, no chunk was written, no document was sent, and the next
    ingest goes as it would have gone without the /convert. *)
Theorem C6_convert_on_empty_session (E : Env) :
  (forall s, Index.images s = [] ->
     Index.convert E s = (s, [EReply MsgNoImages])
     /\ data_chunks (Index.convert E s).2 = []
     /\ sent_documents (Index.convert E s).2 = []
     /\ forall file, Index.processImage E (Index.convert E s).1 file
                     = Index.processImage E s file)
  /\
  (forall now s, Part001.images s = [] ->
     Part001.convert E now s = (s, [EReply MsgNoImages])
     /\ data_chunks (Part001.convert E now s).2 = []
     /\ sent_documents (Part001.convert E now s).2 = []
     /\ forall file, Part001.processImage E (Part001.convert E now s).1 file
                     = Part001.processImage E s file).
Proof.
  split.
  - intros s Hs. rewrite (Index_convert_empty E s Hs). repeat split.
  - intros now s Hs. rewrite (Part001_convert_empty E now s Hs). repeat split.
Qed.

Lemma C6_convert_on_empty_session_witness :
  Index.convert (sample_env 1000 true) Index_empty = (Index_empty, [EReply MsgNoImages])
  /\ data_chunks (Index.convert (sample_env 1000 true) Index_empty).2 = []
  /\ sent_documents (Index.convert (sample_env 1000 true) Index_empty).2 = []
  /\ forall file, Index.processImage (sample_env 1000 true)
                    (Index.convert (sample_env 1000 true) Index_empty).1 file
                  = Index.processImage (sample_env 1000 true) Index_empty file.
Proof.
  apply (proj1 (C6_convert_on_empty_session (sample_env 1000 true))). reflexivity.
Defined.

(** C7.  In both variants an ingest leaves the session as it was when the
    download fails and when sharp rejects the bytes (in part_001 also when
    sharp cannot give the dimensions of what it produced); and whenever an
    ingest changes the image list, the session had room, the download and
    the normalization succeeded, and the change is the normalized image
    appended at the end. *)
Theorem C7_ingest_mutates_only_on_success (E : Env) :
  (forall s file,
     (file ≫= fetchFile E = None -> (Index.processImage E s file).1 = s)
     /\ (forall raw, file ≫= fetchFile E = Some raw -> sharp_jpeg E raw = None ->
         (Index.processImage E s file).1 = s)
     /\ (Index.images (Index.processImage E s file).1 <> Index.images s ->
         exists raw jpg,
           file ≫= fetchFile E = Some raw /\ sharp_jpeg E raw = Some jpg
           /\ len (Index.images s) < Index.MAX_IMAGES_PER_USER
           /\ (Index.processImage E s file).1
              = Index.set_images s (Index.images s ++ [jpg])))
  /\
  (forall s file,
     (file ≫= fetchFile E = None -> (Part001.processImage E s file).1 = s)
     /\ (forall raw, file ≫= fetchFile E = Some raw -> sharp_jpeg E raw = None ->
         (Part001.processImage E s file).1 = s)
     /\ (forall raw jpg, file ≫= fetchFile E = Some raw -> sharp_jpeg E raw = Some jpg ->
         sharp_metadata E jpg = None ->
         (Part001.processImage E s file).1 = s)
     /\ (Part001.images (Part001.processImage E s file).1 <> Part001.images s ->
         exists raw jpg size,
           file ≫= fetchFile E = Some raw /\ sharp_jpeg E raw = Some jpg
           /\ sharp_metadata E jpg = Some size
           /\ len (Part001.images s) < Part001.MAX_IMAGES
           /\ (Part001.processImage E s file).1
              = Part001.set_images s
                  (Part001.images s ++ [Part001.mkStored jpg size.1 size.2]))).
Proof.
  split; intros s file.
  - rewrite Index_processImage_cases.
    destruct (Index.MAX_IMAGES_PER_USER <=? len (Index.images s)) eqn:Hfull.
    { repeat split; intros; try reflexivity. simpl in *. contradiction. }
    apply Z.leb_gt in Hfull.
    destruct (file ≫= fetchFile E) as [raw|].
    2: { repeat split; intros; try reflexivity; try discriminate.
         simpl in *. contradiction. }
    destruct (sharp_jpeg E raw) as [jpg|] eqn:Hjpg.
    + split; [discriminate|]. split.
      * intros raw' [= <-] Hnone. congruence.
      * intros _. exists raw, jpg. repeat split; assumption.
    + repeat split; intros; try reflexivity. simpl in *. contradiction.
  - rewrite Part001_processImage_cases.
    destruct (Part001.MAX_IMAGES <=? len (Part001.images s)) eqn:Hfull.
    { repeat split; intros; try reflexivity. simpl in *. contradiction. }
    apply Z.leb_gt in Hfull.
    destruct (file ≫= fetchFile E) as [raw|].
    2: { repeat split; intros; try reflexivity; try discriminate.
         simpl in *. contradiction. }
    destruct (sharp_jpeg E raw) as [jpg|] eqn:Hjpg.
    2: { repeat split; intros; try reflexivity. simpl in *. contradiction. }
    destruct (sharp_metadata E jpg) as [size|] eqn:Hsize.
    + split; [discriminate|]. split; [|split].
      * intros raw' [= <-] Hnone. congruence.
      * intros raw' jpg' [= <-] Hj Hnone. congruence.
      * intros _. exists raw, jpg, size. repeat split; assumption.
    + repeat split; intros; try reflexivity. simpl in *. contradiction.
Qed.

(** a download that fails, on a session with one image *)
Lemma C7_ingest_mutates_only_on_success_witness :
  (Index.processImage (sample_env 1000 true) Index_one_image None).1 = Index_one_image.
Proof.
  apply (proj1 (proj1 (C7_ingest_mutates_only_on_success (sample_env 1000 true))
                  Index_one_image None)).
  reflexivity.
Defined.

(** C8.  In index.js, for a session table the bot can have reached and a
    session in it, the cleanup run at [now] removes the session if and only
    if [now - lastActive > SESSION_TIMEOUT]; a session active within the
    timeout is still there, unchanged; and the cleanup adds no entry. *)
Theorem C8_cleanup_removes_exactly_the_expired (E : Env) (m : gmap Z Index.Session)
    (now userId : Z) (s : Index.Session) :
  Index.reachable E m ->
  m !! userId = Some s ->
  (Index.cleanupSessions now m !! userId = None
   <-> Index.SESSION_TIMEOUT < now - Index.lastActive s)
  /\ (now - Index.lastActive s <= Index.SESSION_TIMEOUT ->
      Index.cleanupSessions now m !! userId = Some s)
  /\ (forall other, m !! other = None -> Index.cleanupSessions now m !! other = None).
Proof.
  intros Hreach Hs.
  pose proof (Index_reachable_lastActive E m Hreach userId s Hs) as Hpos.
  assert (Hexp : Index.expired now s
                 = (Index.SESSION_TIMEOUT <? now - Index.lastActive s)).
  { unfold Index.expired.
    destruct (Index.lastActive s =? 0) eqn:Hz; [apply Z.eqb_eq in Hz; lia | reflexivity]. }
  rewrite Index_cleanup_lookup, Hs, Hexp. repeat split.
  - destruct (Index.SESSION_TIMEOUT <? now - Index.lastActive s) eqn:Hlt;
      [intros _; apply Z.ltb_lt; assumption | discriminate].
  - intros Hlt. apply Z.ltb_lt in Hlt. rewrite Hlt. reflexivity.
  - intros Hle. apply Z.ltb_ge in Hle. rewrite Hle. reflexivity.
  - intros other Hnone. rewrite Index_cleanup_lookup, Hnone. reflexivity.
Qed.

Lemma C8_cleanup_removes_exactly_the_expired_witness :
  (Index.cleanupSessions 1700003600001 sample_table !! 42 = None
   <-> Index.SESSION_TIMEOUT
       < 1700003600001 - Index.lastActive (Index.mkSession [sample_jpeg] 1700000000000))
  /\ (1700003600001 - Index.lastActive (Index.mkSession [sample_jpeg] 1700000000000)
      <= Index.SESSION_TIMEOUT ->
      Index.cleanupSessions 1700003600001 sample_table !! 42
      = Some (Index.mkSession [sample_jpeg] 1700000000000))
  /\ (forall other, sample_table !! other = None ->
      Index.cleanupSessions 1700003600001 sample_table !! other = None).
Proof.
  apply (C8_cleanup_removes_exactly_the_expired (sample_env 1000 true) sample_table
           1700003600001 42 (Index.mkSession [sample_jpeg] 1700000000000)).
  - apply Index.reach_update; [lia | apply Index.reach_start].
  - vm_compute. reflexivity.
Defined.

(** C9, as the code has it.  In part_001 an ingest either leaves the image
    list as it was or appends a record that carries the normalized bytes
    and the width and height sharp reported for them at that moment; its
    assembly never calls sharp, and the pages of the document it returns
    are made, in order, from the stored records: page i has the size of
    stored image i at 72/96 points per pixel.  In index.js the session
    holds the bare bytes, and the pages of a document are made from what
    sharp reads back of them during the assembly, each fitted in the same
    500 x 700 box. *)
Theorem C9_page_geometry_from_stored_dimensions (E : Env) :
  (forall s file,
     Part001.images (Part001.processImage E s file).1 = Part001.images s
     \/ exists raw jpg size,
          file ≫= fetchFile E = Some raw /\ sharp_jpeg E raw = Some jpg
          /\ sharp_metadata E jpg = Some size
          /\ Part001.images (Part001.processImage E s file).1
             = Part001.images s ++ [Part001.mkStored jpg size.1 size.2])
  /\ (forall imgs,
     decodes (Part001.assemble E imgs).2 = []
     /\ forall pdf doc,
          (Part001.assemble E imgs).1 = Ok (pdf, doc) ->
          doc = map Part001_page_of imgs
          /\ Forall2 (fun page img =>
                        page_size page
                        = Some (Part001.points (Part001.width img),
                                Part001.points (Part001.height img)))
                     doc imgs)
  /\ (forall imgs pdf doc,
     imgs <> [] ->
     (Index.assemble E imgs).1 = Ok (pdf, doc) ->
     exists decoded, mapM (sharp_toBuffer E) imgs = Some decoded
                     /\ doc = map Index_page_of decoded).
Proof.
  repeat split.
  - intros s file. rewrite Part001_processImage_cases.
    destruct (_ <=? _); [left; reflexivity|].
    destruct (file ≫= fetchFile E) as [raw|]; [|left; reflexivity].
    destruct (sharp_jpeg E raw) as [jpg|] eqn:Hjpg; [|left; reflexivity].
    destruct (sharp_metadata E jpg) as [size|] eqn:Hsize; [|left; reflexivity].
    right. exists raw, jpg, size. repeat split; assumption.
  - apply is_data_no_decodes, Part001_assemble_data.
  - exact (Part001_assemble_pages E imgs pdf doc H).
  - rewrite (Part001_assemble_pages E imgs pdf doc H). clear.
    induction imgs as [|img rest IH]; constructor; [reflexivity | exact IH].
  - intros imgs pdf doc Hne Hok.
    pose proof (Index_write_pdf_pages E imgs Hne) as Hp.
    rewrite Index_assemble_fst in Hok.
    destruct (Index.write_pdf E imgs).1 as [p|e]; [|discriminate].
    injection Hok as _ <-. exact Hp.
Qed.

(** one stored 640 x 480 image in part_001: a page of 480 x 360 points *)
Lemma C9_page_geometry_from_stored_dimensions_witness :
  [mkPage (Some (Part001.points 640, Part001.points 480))
          [mkPlaced sample_jpeg
                    (OptAt 0 0 (Part001.points 640) (Part001.points 480))]]
  = map Part001_page_of [Part001.mkStored sample_jpeg 640 480]
  /\ Forall2 (fun page img =>
                page_size page
                = Some (Part001.points (Part001.width img),
                        Part001.points (Part001.height img)))
             [mkPage (Some (Part001.points 640, Part001.points 480))
                     [mkPlaced sample_jpeg
                               (OptAt 0 0 (Part001.points 640) (Part001.points 480))]]
             [Part001.mkStored sample_jpeg 640 480].
Proof.
  apply (proj2 (proj1 (proj2 (C9_page_geometry_from_stored_dimensions (sample_env 1000 true)))
                  [Part001.mkStored sample_jpeg 640 480])
           (Buffer_concat [Buffer_alloc 15 Byte.x25; Buffer_alloc 40 Byte.x20;
                           Buffer_alloc 1000 Byte.x00; Buffer_alloc 120 Byte.x0a])).
  vm_compute. reflexivity.
Defined.

(** index.js: the session holds bare bytes, the assembly hands each of them
    to sharp, the page made is the default page with the 500 x 700 box
    whatever the image measures, and with a sharp that cannot read the
    stored bytes back the same assembly fails. *)
Lemma C9_counterexample :
  Index.images Index_one_image = [sample_jpeg]
  /\ decodes (Index.assemble (sample_env 1000 true) (Index.images Index_one_image)).2
     = [sample_jpeg]
  /\ (Index.assemble (sample_env 1000 true) (Index.images Index_one_image)).1
     = Ok (Buffer_concat [Buffer_alloc 15 Byte.x25; Buffer_alloc 1000 Byte.x00;
                          Buffer_alloc 120 Byte.x0a],
           [mkPage None [mkPlaced sample_jpeg (OptFit 500 700)]])
  /\ (Index.assemble sample_env_unreadable (Index.images Index_one_image)).1
     = Throw DecodeFailed.
Proof. repeat split; vm_compute; reflexivity. Qed.

(** ** Which documents are taken for images *)

Lemma ext_check x :
  (negb (String.eqb x EmptyString) && Index.includes Index.validExts x) = true
  <-> In x Index.validExts.
Proof.
  rewrite andb_true_iff, includes_In. split; [intros [_ H]; exact H|].
  intros H. split; [|exact H].
  destruct H as [<- | [<- | [<- | []]]]; reflexivity.
Qed.

Lemma accepted_spec (types : list string) (mime fname : option string) :
  (from_option (Index.includes types) false mime
   || from_option (fun ext => negb (String.eqb ext EmptyString)
                              && Index.includes Index.validExts ext)
        false
        (name ← fname; piece ← last (Index.split_dot name);
         Some (Index.toLowerCase piece))) = true
  <-> (exists m, mime = Some m /\ In m types)
      \/ (exists name ext, fname = Some name /\ is_extension name ext
                           /\ In (Index.toLowerCase ext) Index.validExts).
Proof.
  rewrite orb_true_iff.
  assert (Hmime : from_option (Index.includes types) false mime = true
                  <-> exists m, mime = Some m /\ In m types).
  { destruct mime as [m|]; simpl.
    + rewrite includes_In. split; [intros H; exists m; auto|].
      intros (m' & [= <-] & H). exact H.
    + split; [discriminate | intros (m' & [=] & _)]. }
  rewrite Hmime. clear Hmime.
  enough (Hname : from_option (fun ext => negb (String.eqb ext EmptyString)
                              && Index.includes Index.validExts ext)
        false
        (name ← fname; piece ← last (Index.split_dot name);
         Some (Index.toLowerCase piece)) = true
      <-> exists name ext, fname = Some name /\ is_extension name ext
                           /\ In (Index.toLowerCase ext) Index.validExts)
    by (rewrite Hname; reflexivity).
  destruct fname as [name|]; simpl.
  2: { split; [discriminate | intros (n & e & [=] & _)]. }
  destruct (last (Index.split_dot name)) as [piece|] eqn:Hl; simpl.
  - rewrite ext_check. apply last_split_dot in Hl. split.
    + intros H. exists name, piece. auto.
    + intros (n & e & [= <-] & He & H). apply last_split_dot in He, Hl.
      rewrite He in Hl. injection Hl as <-. exact H.
  - split; [discriminate|]. intros (n & e & [= <-] & He & _).
    apply last_split_dot in He. congruence.
Qed.

Lemma Index_processImage_never_rejects_type E s file :
  ~ In (EReply MsgJpegPngOnly) (Index.processImage E s file).2.
Proof.
  rewrite Index_processImage_cases.
  destruct (_ <=? _); [simpl; intros [H|[]]; discriminate|].
  destruct (file ≫= fetchFile E) as [raw|].
  2: { simpl. intros [H|[H|[H|[]]]]; discriminate. }
  destruct (sharp_jpeg E raw); simpl; intros [H|[H|[H|[H|[]]]]]; discriminate.
Qed.

Lemma Part001_processImage_never_rejects_type E s file :
  ~ In (EReply MsgJpegPngOnly) (Part001.processImage E s file).2.
Proof.
  rewrite Part001_processImage_cases.
  destruct (_ <=? _); [simpl; intros [H|[]]; discriminate|].
  destruct (file ≫= fetchFile E) as [raw|].
  2: { simpl. intros [H|[H|[]]]; discriminate. }
  destruct (sharp_jpeg E raw) as [jpg|].
  2: { simpl. intros [H|[H|[H|[]]]]; discriminate. }
  destruct (sharp_metadata E jpg); simpl; intros [H|[H|[H|[H|[]]]]]; discriminate.
Qed.

(** C10, as the code has it.  A document is taken for an image when its
    declared type is image/jpeg or image/png (index.js also takes
    image/jpg, part_001 does not), or, whatever its declared type, when the
    extension of its file name, lower-cased, is jpg, jpeg or png.  A
    document taken for an image is handed to [processImage]; the other ones
    get the JPEG-or-PNG-only reply and nothing else, and that reply is sent
    in no other case. *)
Theorem C10_documents_taken_by_type_or_extension (E : Env) :
  (forall s doc,
     (Index.accepted doc = true
      <-> (exists m, Index.mime_type doc = Some m
                     /\ In m ["image/jpeg"; "image/png"; "image/jpg"]%string)
          \/ (exists name ext,
                Index.file_name doc = Some name /\ is_extension name ext
                /\ In (Index.toLowerCase ext) ["jpg"; "jpeg"; "png"]%string))
     /\ (Index.accepted doc = true ->
         Index.on_document E s doc = Index.processImage E s (Some (Index.file_id doc)))
     /\ (Index.accepted doc = false ->
         Index.on_document E s doc = (s, [EReply MsgJpegPngOnly]))
     /\ (In (EReply MsgJpegPngOnly) (Index.on_document E s doc).2
         <-> Index.accepted doc = false))
  /\
  (forall s doc,
     (Part001.accepted doc = true
      <-> (exists m, Part001.mime_type doc = Some m
                     /\ In m ["image/jpeg"; "image/png"]%string)
          \/ (exists name ext,
                Part001.file_name doc = Some name /\ is_extension name ext
                /\ In (Index.toLowerCase ext) ["jpg"; "jpeg"; "png"]%string))
     /\ (Part001.accepted doc = true ->
         Part001.on_document E s doc
         = Part001.processImage E s (Some (Part001.file_id doc)))
     /\ (Part001.accepted doc = false ->
         Part001.on_document E s doc = (s, [EReply MsgJpegPngOnly]))
     /\ (In (EReply MsgJpegPngOnly) (Part001.on_document E s doc).2
         <-> Part001.accepted doc = false)).
Proof.
  split; intros s doc.
  - split; [apply (accepted_spec Index.validTypes)|].
    unfold Index.on_document. destruct (Index.accepted doc) eqn:Hacc.
    + repeat split; try reflexivity; try discriminate.
      intros Hin. exfalso. eapply Index_processImage_never_rejects_type. exact Hin.
    + repeat split; try reflexivity; try discriminate.
      intros _. simpl. left. reflexivity.
  - split; [apply (accepted_spec Part001.validTypes)|].
    unfold Part001.on_document. destruct (Part001.accepted doc) eqn:Hacc.
    + repeat split; try reflexivity; try discriminate.
      intros Hin. exfalso. eapply Part001_processImage_never_rejects_type. exact Hin.
    + repeat split; try reflexivity; try discriminate.
      intros _. simpl. left. reflexivity.
Qed.

(** a file of an unknown type named holiday.2024.PNG is ingested *)
Lemma C10_documents_taken_by_type_or_extension_witness :
  Index.accepted Index_png_by_name = true
  /\ Index.on_document (sample_env 1000 true) Index_empty Index_png_by_name
     = Index.processImage (sample_env 1000 true) Index_empty
         (Some (Index.file_id Index_png_by_name)).
Proof.
  assert (H : Index.accepted Index_png_by_name = true).
  { apply (proj1 (C10_documents_taken_by_type_or_extension (sample_env 1000 true))
             Index_empty Index_png_by_name).
    right. exists "holiday.2024.PNG"%string, "PNG"%string.
    split; [reflexivity|]. split.
    - split; [reflexivity|]. right. exists "holiday.2024"%string. reflexivity.
    - simpl. right. right. left. reflexivity. }
  split; [exact H|].
  apply (proj1 (proj2 (proj1 (C10_documents_taken_by_type_or_extension (sample_env 1000 true))
                         Index_empty Index_png_by_name))).
  exact H.
Defined.

(** part_001 turns away a document declared as image/jpg whose name does
    not end in an image extension; index.js ingests the same document. *)
Lemma C10_counterexample :
  Part001.mime_type Part001_jpg_document = Some "image/jpg"%string
  /\ Part001.on_document (sample_env 1000 true) Part001_empty Part001_jpg_document
     = (Part001_empty, [EReply MsgJpegPngOnly])
  /\ Index.on_document (sample_env 1000 true) Index_empty Index_jpg_document
     = (Index.mkSession [sample_jpeg] 1700000000000,
        [EReply MsgProcessing; EFetch (Some "file_1"%string); EDecode sample_raw;
         EReply (MsgImageAdded 1 50)]).
Proof. repeat split; vm_compute; reflexivity. Qed.

(** * Further properties of the handlers *)

(** ** What a handler does to the image list *)

Lemma Index_processImage_images E s file :
  Index.images (Index.processImage E s file).1 = Index.images s
  \/ exists x, Index.images (Index.processImage E s file).1 = Index.images s ++ [x]
               /\ len (Index.images s) < Index.MAX_IMAGES_PER_USER.
Proof.
  rewrite Index_processImage_cases.
  destruct (Index.MAX_IMAGES_PER_USER <=? len (Index.images s)) eqn:Hfull;
    [left; reflexivity|].
  apply Z.leb_gt in Hfull.
  destruct (file ≫= fetchFile E) as [raw|]; [|left; reflexivity].
  destruct (sharp_jpeg E raw) as [jpg|]; [|left; reflexivity].
  right. exists jpg. split; [reflexivity | assumption].
Qed.

Lemma Part001_processImage_images E s file :
  Part001.images (Part001.processImage E s file).1 = Part001.images s
  \/ exists x, Part001.images (Part001.processImage E s file).1 = Part001.images s ++ [x]
               /\ len (Part001.images s) < Part001.MAX_IMAGES.
Proof.
  rewrite Part001_processImage_cases.
  destruct (Part001.MAX_IMAGES <=? len (Part001.images s)) eqn:Hfull;
    [left; reflexivity|].
  apply Z.leb_gt in Hfull.
  destruct (file ≫= fetchFile E) as [raw|]; [|left; reflexivity].
  destruct (sharp_jpeg E raw) as [jpg|]; [|left; reflexivity].
  destruct (sharp_metadata E jpg) as [size|]; [|left; reflexivity].
  right. eexists. split; [reflexivity | assumption].
Qed.

Lemma Index_convert_images E s :
  (Index.convert E s).1 = s \/ (Index.convert E s).1 = Index.set_images s [].
Proof.
  destruct (Index.images s) as [|img rest] eqn:Himgs.
  - left. rewrite Index_convert_empty by assumption. reflexivity.
  - assert (Hne : Index.images s <> []) by (rewrite Himgs; discriminate).
    pose proof (Index_convert_cases E s Hne) as Hc.
    destruct (Index.assemble E (Index.images s)) as [[[pdf doc]|e] t].
    + simpl in Hc. destruct (replyWithDocument_ok E pdf); rewrite Hc; auto.
    + rewrite Hc. auto.
Qed.

Lemma Part001_convert_images E now s :
  (Part001.convert E now s).1 = s
  \/ (Part001.convert E now s).1 = Part001.set_images s [].
Proof.
  destruct (Part001.images s) as [|img rest] eqn:Himgs.
  - left. rewrite Part001_convert_empty by assumption. reflexivity.
  - assert (Hne : Part001.images s <> []) by (rewrite Himgs; discriminate).
    pose proof (Part001_convert_cases E now s Hne) as Hc.
    destruct (reply_ok E MsgCreatingPdf); [|rewrite Hc; auto].
    destruct (Part001.assemble E (Part001.images s)) as [[[pdf doc]|e] t].
    + simpl in Hc. destruct (replyWithDocument_ok E pdf); rewrite Hc; auto.
    + rewrite Hc. auto.
Qed.

Lemma Index_dispatch_images E s u :
  Index.images (Index.dispatch E s u).1 = Index.images s
  \/ Index.images (Index.dispatch E s u).1 = []
  \/ exists x, Index.images (Index.dispatch E s u).1 = Index.images s ++ [x]
               /\ len (Index.images s) < Index.MAX_IMAGES_PER_USER.
Proof.
  destruct u; simpl; auto.
  - destruct (Index_convert_images E s) as [-> | ->]; auto.
  - unfold Index.on_photo.
    destruct (Index_processImage_images E s (last photo)) as [H | H]; auto.
  - unfold Index.on_document. destruct (Index.accepted doc); auto.
    destruct (Index_processImage_images E s (Some (Index.file_id doc))) as [H | H]; auto.
Qed.

Lemma Part001_dispatch_images E named s u :
  Part001.images (Part001Table.dispatch E named s u).1 = Part001.images s
  \/ Part001.images (Part001Table.dispatch E named s u).1 = []
  \/ exists x, Part001.images (Part001Table.dispatch E named s u).1
               = Part001.images s ++ [x]
               /\ len (Part001.images s) < Part001.MAX_IMAGES.
Proof.
  destruct u; simpl; auto.
  - destruct (Part001_convert_images E named s) as [-> | ->]; auto.
  - unfold Part001.on_photo.
    destruct (Part001_processImage_images E s (last photo)) as [H | H]; auto.
  - unfold Part001.on_document. destruct (Part001.accepted doc); auto.
    destruct (Part001_processImage_images E s (Some (Part001.file_id doc))) as [H | H]; auto.
Qed.

Lemma Part001_handleUpdate_lookup E now stamp named userId u m :
  let s := default (Part001.mkSession [] None) (m !! userId) in
  (Part001Table.handleUpdate E now stamp named userId u m).1
  = if Part001Table.stale now s then delete userId m
    else <[userId := (Part001Table.dispatch E named
                        (Part001.mkSession (Part001.images s) (Some stamp)) u).1]> m.
Proof.
  simpl. unfold Part001Table.handleUpdate.
  destruct (Part001Table.stale now _); [reflexivity|].
  destruct (Part001Table.dispatch E named _ u). reflexivity.
Qed.

(** X1.  A handler that runs alone never takes a session beyond 50
    images.  But 50 is no bound on what a session can hold: the capacity is
    looked at before the awaits of an ingest, and what runs after them, the
    push, takes the session as it is by then, whatever it holds.  For an
    ingest that runs alone the push is made on the session that was
    checked.  For two ingests that overlap on a session of 49 images both
    checks are made on the 49 images and pass, the first push leaves 50
    images and the second is made on those: the session holds 51 images.
    In both variants. *)
Theorem X1_capacity_is_checked_before_the_awaits_only (E : Env) :
  ((forall s u, len (Index.images s) <= Index.MAX_IMAGES_PER_USER ->
      len (Index.images (Index.dispatch E s u).1) <= Index.MAX_IMAGES_PER_USER)
   /\ (forall s f x,
      len (Index.images s) < Index.MAX_IMAGES_PER_USER ->
      Index_normalized E f = Some x ->
      (Index.processImage E s (Some f)).1 = (Index.processImage_push s x).1
      /\ last (Index.processImage E s (Some f)).2 = last (Index.processImage_push s x).2)
   /\ (forall s x1 x2, len (Index.images s) = 49 ->
      (Index.MAX_IMAGES_PER_USER <=? len (Index.images s)) = false
      /\ Index.images (Index.processImage_push (Index.processImage_push s x1).1 x2).1
         = Index.images s ++ [x1; x2]
      /\ len (Index.images (Index.processImage_push (Index.processImage_push s x1).1 x2).1)
         = 51))
  /\
  ((forall named s u, len (Part001.images s) <= Part001.MAX_IMAGES ->
      len (Part001.images (Part001Table.dispatch E named s u).1) <= Part001.MAX_IMAGES)
   /\ (forall s f x,
      len (Part001.images s) < Part001.MAX_IMAGES ->
      Part001_normalized E f = Some x ->
      (Part001.processImage E s (Some f)).1 = (Part001.processImage_push s x).1
      /\ last (Part001.processImage E s (Some f)).2
         = last (Part001.processImage_push s x).2)
   /\ (forall s x1 x2, len (Part001.images s) = 49 ->
      (Part001.MAX_IMAGES <=? len (Part001.images s)) = false
      /\ Part001.images (Part001.processImage_push (Part001.processImage_push s x1).1 x2).1
         = Part001.images s ++ [x1; x2]
      /\ len (Part001.images
                (Part001.processImage_push (Part001.processImage_push s x1).1 x2).1)
         = 51)).
Proof.
  split; (split; [|split]).
  - intros s u Hle.
    destruct (Index_dispatch_images E s u) as [-> | [-> | (x & -> & Hroom)]].
    + assumption.
    + unfold len, Index.MAX_IMAGES_PER_USER. simpl. lia.
    + unfold len in *. rewrite length_app. simpl. lia.
  - intros s f x Hlt Hn. rewrite Index_processImage_cases.
    assert (Hroom : (Index.MAX_IMAGES_PER_USER <=? len (Index.images s)) = false)
      by (apply Z.leb_gt; assumption).
    rewrite Hroom. unfold Index_normalized in Hn. simpl.
    destruct (fetchFile E f) as [raw|]; [|discriminate]. simpl in Hn.
    rewrite Hn. split; reflexivity.
  - intros s x1 x2 H49. split; [|split].
    + apply Z.leb_gt. unfold Index.MAX_IMAGES_PER_USER. lia.
    + simpl. rewrite <- app_assoc. reflexivity.
    + simpl. unfold len in *. rewrite !length_app. simpl. lia.
  - intros named s u Hle.
    destruct (Part001_dispatch_images E named s u) as [-> | [-> | (x & -> & Hroom)]].
    + assumption.
    + unfold len, Part001.MAX_IMAGES. simpl. lia.
    + unfold len in *. rewrite length_app. simpl. lia.
  - intros s f x Hlt Hn. rewrite Part001_processImage_cases.
    assert (Hroom : (Part001.MAX_IMAGES <=? len (Part001.images s)) = false)
      by (apply Z.leb_gt; assumption).
    rewrite Hroom. unfold Part001_normalized in Hn. simpl.
    destruct (fetchFile E f) as [raw|]; [|discriminate]. simpl in Hn.
    destruct (sharp_jpeg E raw) as [jpg|]; [|discriminate]. simpl in Hn.
    destruct (sharp_metadata E jpg) as [size|]; [|discriminate]. simpl in Hn.
    injection Hn as <-. split; reflexivity.
  - intros s x1 x2 H49. split; [|split].
    + apply Z.leb_gt. unfold Part001.MAX_IMAGES. lia.
    + simpl. rewrite <- app_assoc. reflexivity.
    + simpl. unfold len in *. rewrite !length_app. simpl. lia.
Qed.

(** 49 images, two photos that overlap: 51 images *)
Lemma X1_capacity_is_checked_before_the_awaits_only_witness :
  ((Index.MAX_IMAGES_PER_USER <=? len (Index.images Index_almost_full)) = false
   /\ Index.images
        (Index.processImage_push
           (Index.processImage_push Index_almost_full sample_jpeg).1 sample_jpeg).1
      = Index.images Index_almost_full ++ [sample_jpeg; sample_jpeg]
   /\ len (Index.images
             (Index.processImage_push
                (Index.processImage_push Index_almost_full sample_jpeg).1 sample_jpeg).1)
      = 51)
  /\
  ((Part001.MAX_IMAGES <=? len (Part001.images Part001_almost_full)) = false
   /\ Part001.images
        (Part001.processImage_push
           (Part001.processImage_push Part001_almost_full
              (Part001.mkStored sample_jpeg 640 480)).1
           (Part001.mkStored sample_jpeg 800 600)).1
      = Part001.images Part001_almost_full
        ++ [Part001.mkStored sample_jpeg 640 480; Part001.mkStored sample_jpeg 800 600]
   /\ len (Part001.images
             (Part001.processImage_push
                (Part001.processImage_push Part001_almost_full
                   (Part001.mkStored sample_jpeg 640 480)).1
                (Part001.mkStored sample_jpeg 800 600)).1)
      = 51).
Proof.
  split.
  - apply (proj2 (proj2 (proj1 (X1_capacity_is_checked_before_the_awaits_only
                                  (sample_env 1000 true))))
             Index_almost_full sample_jpeg sample_jpeg).
    reflexivity.
  - apply (proj2 (proj2 (proj2 (X1_capacity_is_checked_before_the_awaits_only
                                  (sample_env 1000 true))))
             Part001_almost_full (Part001.mkStored sample_jpeg 640 480)
             (Part001.mkStored sample_jpeg 800 600)).
    reflexivity.
Defined.

(** ** One update, in the table *)




(** X3.  /cancel in index.js: whatever the sender's session held, after a
    /cancel it holds no image; a /cancel repeated at once leaves the table
    as the first one left it; and the sender's next /convert is answered
    with the no-images reply alone. *)
Theorem X3_cancel_clears_and_is_idempotent (E : Env) (now userId : Z)
    (m : gmap Z Index.Session) :
  (Index.handleUpdate E now userId Index.CmdCancel m).1 !! userId
  = Some (Index.mkSession [] now)
  /\ (Index.handleUpdate E now userId Index.CmdCancel
        (Index.handleUpdate E now userId Index.CmdCancel m).1).1
     = (Index.handleUpdate E now userId Index.CmdCancel m).1
  /\ forall E' now',
       (Index.handleUpdate E' now' userId Index.CmdConvert
          (Index.handleUpdate E now userId Index.CmdCancel m).1).2
       = [EReply MsgNoImages].
Proof.
  assert (H1 : (Index.handleUpdate E now userId Index.CmdCancel m).1
               = <[userId := Index.mkSession [] now]> m).
  { unfold Index.handleUpdate. simpl. unfold Index.middleware, Index.set_images.
    destruct (m !! userId); reflexivity. }
  rewrite H1. repeat split.
  - apply lookup_insert_eq.
  - unfold Index.handleUpdate. simpl. unfold Index.middleware.
    rewrite lookup_insert_eq. simpl. apply insert_insert_eq.
  - intros E' now'. unfold Index.handleUpdate. simpl Index.dispatch.
    rewrite Index_convert_empty; [reflexivity|].
    unfold Index.middleware. rewrite lookup_insert_eq. reflexivity.
Qed.

(** ** The cleanup *)

Lemma Index_expired_later now1 now2 s :
  now1 <= now2 -> Index.expired now1 s = true -> Index.expired now2 s = true.
Proof.
  unfold Index.expired. intros Hle H.
  apply orb_true_iff in H as [H | H]; apply orb_true_iff; [left; assumption|].
  right. apply Z.ltb_lt in H. apply Z.ltb_lt. lia.
Qed.

(** X4.  The two numbers the cleanup logs add up: the sessions it removed
    and the sessions it left are the sessions there were. *)
Theorem X4_cleanup_counts_add_up (now : Z) (m : gmap Z Index.Session) :
  (Index.cleanedCount now m + size (Index.cleanupSessions now m) = size m)%nat.
Proof.
  unfold Index.cleanedCount, Index.cleanupSessions.
  induction m as [|userId s m Hfresh _ IH] using map_first_key_ind.
  - rewrite !map_filter_empty, !map_size_empty. reflexivity.
  - rewrite map_size_insert_None by assumption.
    destruct (Index.expired now s) eqn:Hx.
    + rewrite (map_filter_insert_True (fun entry => Index.expired now entry.2 = true))
        by exact Hx.
      rewrite (map_filter_insert_False (fun entry => Index.expired now entry.2 = false))
        by (simpl; congruence).
      rewrite delete_id by assumption.
      rewrite map_size_insert_None; [lia|].
      apply map_lookup_filter_None. left. assumption.
    + rewrite (map_filter_insert_False (fun entry => Index.expired now entry.2 = true))
        by (simpl; congruence).
      rewrite (map_filter_insert_True (fun entry => Index.expired now entry.2 = false))
        by exact Hx.
      rewrite delete_id by assumption.
      rewrite map_size_insert_None; [lia|].
      apply map_lookup_filter_None. left. assumption.
Qed.

(** X5.  Cleanups compose: a cleanup followed by a later one leaves what
    the later one alone would have left.  In particular a cleanup repeated
    at the same instant removes nothing more. *)
Theorem X5_cleanups_compose (now1 now2 : Z) (m : gmap Z Index.Session) :
  now1 <= now2 ->
  Index.cleanupSessions now2 (Index.cleanupSessions now1 m)
  = Index.cleanupSessions now2 m.
Proof.
  intros Hle. apply map_eq. intros userId.
  rewrite !Index_cleanup_lookup.
  destruct (m !! userId) as [s|]; [|reflexivity].
  destruct (Index.expired now1 s) eqn:H1; [|reflexivity].
  rewrite (Index_expired_later now1 now2 s Hle H1). reflexivity.
Qed.

Lemma X5_cleanups_compose_witness :
  Index.cleanupSessions 1700003600001
    (Index.cleanupSessions 1700000000001 sample_table_two)
  = Index.cleanupSessions 1700003600001 sample_table_two.
Proof. apply X5_cleanups_compose. lia. Defined.

(** X6.  A session idle for longer than the timeout, once a cleanup has
    run, is as if it had never been: the user's /convert is then answered
    with the no-images reply alone and starts a fresh, empty session stamped
    with the time of the /convert. *)
Theorem X6_convert_after_expiry_starts_afresh (E : Env) (now now' userId : Z)
    (m : gmap Z Index.Session) (s : Index.Session) :
  m !! userId = Some s ->
  Index.SESSION_TIMEOUT < now - Index.lastActive s ->
  Index.handleUpdate E now' userId Index.CmdConvert (Index.cleanupSessions now m)
  = (<[userId := Index.mkSession [] now']> (Index.cleanupSessions now m),
     [EReply MsgNoImages]).
Proof.
  intros Hs Hold.
  assert (Hgone : Index.cleanupSessions now m !! userId = None).
  { rewrite Index_cleanup_lookup, Hs. unfold Index.expired.
    apply Z.ltb_lt in Hold. rewrite Hold, orb_true_r. reflexivity. }
  unfold Index.handleUpdate, Index.middleware. rewrite Hgone. reflexivity.
Qed.

Lemma X6_convert_after_expiry_starts_afresh_witness :
  Index.handleUpdate (sample_env 1000 true) 1700003700000 42 Index.CmdConvert
    (Index.cleanupSessions 1700003600001 sample_table)
  = (<[42 := Index.mkSession [] 1700003700000]>
       (Index.cleanupSessions 1700003600001 sample_table),
     [EReply MsgNoImages]).
Proof.
  apply (X6_convert_after_expiry_starts_afresh (sample_env 1000 true)
           1700003600001 1700003700000 42 sample_table
           (Index.mkSession [sample_jpeg] 1700000000000)).
  - vm_compute. reflexivity.
  - vm_compute. reflexivity.
Defined.

(** ** The document and its chunks *)

Lemma writer_trace_no_document t pdf name caption :
  Forall writer_event t -> ~ In (ESendDocument pdf name caption) t.
Proof.
  intros Hev Hin. rewrite Forall_forall in Hev.
  apply list_elem_of_In, Hev in Hin. contradiction.
Qed.

Lemma sent_after_assembly limit (m : M (Buffer * Doc)) tail pdf name caption :
  assembled limit m ->
  convert_tail m.1 tail ->
  In (ESendDocument pdf name caption) (EReply MsgCreatingPdf :: m.2 ++ tail) ->
  pdf = Buffer_concat (data_chunks (EReply MsgCreatingPdf :: m.2 ++ tail)).
Proof.
  intros [Hev Hm] Htail Hin.
  assert (Hchunks : data_chunks (EReply MsgCreatingPdf :: m.2 ++ tail) = data_chunks m.2).
  { simpl. rewrite data_chunks_app, (convert_tail_silent _ _ Htail), app_nil_r.
    reflexivity. }
  rewrite Hchunks. destruct Hin as [Hin | Hin]; [discriminate|].
  apply in_app_or in Hin as [Hin | Hin].
  { exfalso. eapply writer_trace_no_document; eassumption. }
  destruct m as [[[pdf' doc]|e] t]; simpl in *.
  - destruct Hm as (_ & Hpdf & _).
    destruct Htail as (n & c & [-> | ->]); simpl in Hin.
    + destruct Hin as [[= <- _ _] | []]. exact Hpdf.
    + destruct Hin as [[= <- _ _] | [Hin | []]]; [exact Hpdf | discriminate].
  - subst tail. destruct Hin as [Hin | []]. discriminate.
Qed.

(** X7.  The document /convert hands to Telegram is the concatenation, in
    the order they came, of all the chunks the writer delivered during that
    /convert: none is dropped, none is doubled, none comes from elsewhere.
    In both variants. *)
Theorem X7_document_is_the_chunks_in_order (E : Env) :
  (forall s pdf name caption,
     In (ESendDocument pdf name caption) (Index.convert E s).2 ->
     pdf = Buffer_concat (data_chunks (Index.convert E s).2))
  /\ (forall now s pdf name caption,
     In (ESendDocument pdf name caption) (Part001.convert E now s).2 ->
     pdf = Buffer_concat (data_chunks (Part001.convert E now s).2)).
Proof.
  split.
  - intros s pdf name caption.
    destruct (Index.images s) as [|img rest] eqn:Himgs.
    { rewrite Index_convert_empty by assumption. simpl. intros [H | []]. discriminate. }
    assert (Hne : Index.images s <> []) by (rewrite Himgs; discriminate).
    pose proof (Index_convert_cases E s Hne) as Hc.
    pose proof (Index_assembled E (Index.images s)) as Ha.
    destruct (Index.assemble E (Index.images s)) as [[[pdf' doc]|e] t] eqn:Hasm.
    + simpl in Hc. destruct (replyWithDocument_ok E pdf'); rewrite Hc; simpl snd;
        intros Hin;
        apply (sent_after_assembly Index.MAX_PDF_SIZE (Ok (pdf', doc), t) _ _ name caption Ha);
        try exact Hin; simpl; eauto.
    + rewrite Hc. simpl snd. intros Hin.
      apply (sent_after_assembly Index.MAX_PDF_SIZE (Throw e, t) _ _ name caption Ha);
        [reflexivity | exact Hin].
  - intros now s pdf name caption.
    destruct (Part001.images s) as [|img rest] eqn:Himgs.
    { rewrite Part001_convert_empty by assumption. simpl. intros [H | []]. discriminate. }
    assert (Hne : Part001.images s <> []) by (rewrite Himgs; discriminate).
    pose proof (Part001_convert_cases E now s Hne) as Hc.
    pose proof (Part001_assembled E (Part001.images s)) as Ha.
    destruct (reply_ok E MsgCreatingPdf).
    2: { rewrite Hc. simpl. intros [H | [H | []]]; discriminate. }
    destruct (Part001.assemble E (Part001.images s)) as [[[pdf' doc]|e] t] eqn:Hasm.
    + simpl in Hc. destruct (replyWithDocument_ok E pdf'); rewrite Hc; simpl snd;
        intros Hin;
        apply (sent_after_assembly Part001.MAX_PDF_SIZE (Ok (pdf', doc), t) _ _ name caption Ha);
        try exact Hin; simpl; eauto.
    + rewrite Hc. simpl snd. intros [Hin | Hin]; [discriminate|]. exfalso.
      apply in_app_or in Hin as [Hin | [Hin | []]]; [|discriminate].
      eapply writer_trace_no_document; [apply Ha | exact Hin].
Qed.

Lemma X7_document_is_the_chunks_in_order_witness :
  Buffer_concat [Buffer_alloc 15 Byte.x25; Buffer_alloc 1000 Byte.x00;
                 Buffer_alloc 120 Byte.x0a]
  = Buffer_concat
      (data_chunks (Index.convert (sample_env 1000 true) Index_one_image).2).
Proof.
  apply (proj1 (X7_document_is_the_chunks_in_order (sample_env 1000 true))
           Index_one_image _ ImagesPdf (Some 1)).
  vm_compute. do 5 right. left. reflexivity.
Defined.

(** ** The decodings of an assembly *)

Lemma decodes_app t1 t2 : decodes (t1 ++ t2) = decodes t1 ++ decodes t2.
Proof.
  induction t1 as [|e t1 IH]; simpl; [reflexivity|].
  destruct e; simpl; rewrite IH; reflexivity.
Qed.

Lemma decodes_upto_data {A B} (l : list Buffer) (m : M A) (f : A -> M B) :
  Forall is_data m.2 -> (forall a, decodes_upto l (f a)) -> decodes_upto l (m ≫= f).
Proof.
  intros Hd Hf. destruct m as [[a|e] t]; simpl in Hd.
  - unfold mbind, M_bind, bind. specialize (Hf a).
    destruct (f a) as [r t']. unfold decodes_upto in *. simpl in *.
    rewrite decodes_app, (is_data_no_decodes _ Hd). exact Hf.
  - split; simpl; [|discriminate].
    rewrite (is_data_no_decodes _ Hd). apply prefix_nil.
Qed.

Lemma decodes_upto_then_data {A B} (l : list Buffer) (m : M A) (f : A -> M B) :
  decodes_upto l m -> (forall a, Forall is_data (f a).2) -> decodes_upto l (m ≫= f).
Proof.
  intros [Hpre Hall] Hf. destruct m as [[a|e] t]; simpl in *.
  - unfold mbind, M_bind, bind. specialize (Hf a).
    destruct (f a) as [r t']. unfold decodes_upto. simpl in *.
    rewrite decodes_app, (is_data_no_decodes _ Hf), app_nil_r.
    split; [exact Hpre|]. intros b _. apply (Hall a). reflexivity.
  - split; simpl; [exact Hpre | discriminate].
Qed.

Lemma decodes_upto_sharp {A B} (l : list Buffer) (dec : Buffer -> option A) b
    (f : A -> M B) :
  (forall a, decodes_upto l (f a)) -> decodes_upto (b :: l) (sharp dec b ≫= f).
Proof.
  intros Hf. unfold sharp, call. destruct (dec b) as [a|].
  - unfold mbind, M_bind, bind. specialize (Hf a).
    destruct (f a) as [r t']. destruct Hf as [Hpre Hall]. unfold decodes_upto. simpl in *.
    split; [apply prefix_cons; exact Hpre|].
    intros x Hok. f_equal. apply (Hall x). exact Hok.
  - split; simpl; [|discriminate]. apply (prefix_cons b []), prefix_nil.
Qed.

Lemma Index_loop_decodes E imgs : forall n index p,
  decodes_upto imgs (Index.convert_loop E n index imgs p).
Proof.
  destruct (writer_calls_data E Index.MAX_PDF_SIZE) as (_ & Hpage & Himg & _).
  induction imgs as [|img rest IH]; intros n index p.
  - split; [apply prefix_nil | reflexivity].
  - rewrite Index_loop_cons. apply decodes_upto_sharp. intros decoded.
    apply decodes_upto_data; [apply Himg|]. intros p1.
    apply decodes_upto_data; [|intros p2; apply IH].
    destruct (index <? n - 1); [apply Hpage | constructor].
Qed.

(** X8.  The assembly of index.js hands the stored images to sharp one by
    one in their order, each at most once, and stops at the first failure:
    the images decoded are a prefix of the stored ones, and all of them,
    each exactly once, when the assembly returns a document. *)
Theorem X8_assembly_decodes_in_order (E : Env) (imgs : list Buffer) :
  decodes (Index.assemble E imgs).2 `prefix_of` imgs
  /\ (forall pdf doc, (Index.assemble E imgs).1 = Ok (pdf, doc) ->
       decodes (Index.assemble E imgs).2 = imgs).
Proof.
  destruct (writer_calls_data E Index.MAX_PDF_SIZE) as (Hnew & _ & _ & Hend).
  assert (H : decodes_upto imgs (Index.assemble E imgs)).
  { unfold Index.assemble.
    apply decodes_upto_then_data; [|intros p; constructor].
    unfold Index.write_pdf.
    apply decodes_upto_data; [apply Hnew|]. intros p0.
    apply decodes_upto_then_data; [apply Index_loop_decodes | apply Hend]. }
  destruct H as [Hpre Hall]. split; [exact Hpre|].
  intros pdf doc Hok. apply (Hall (pdf, doc)). exact Hok.
Qed.

(** ** Batches never disturb what is stored *)

(** X9.  Whatever the files of a batch are and whichever of them fail,
    ingesting them never displaces an image already stored: the images the
    session held are, in their order, the first images it holds afterwards,
    and it holds at most one more image per file.  In both variants. *)
Theorem X9_ingests_only_append (E : Env) (files : list FileId) :
  (forall s,
     Index.images s `prefix_of` Index.images (Index_ingest_all E s files)
     /\ (length (Index.images (Index_ingest_all E s files))
         <= length (Index.images s) + length files)%nat)
  /\ (forall s,
     Part001.images s `prefix_of` Part001.images (Part001_ingest_all E s files)
     /\ (length (Part001.images (Part001_ingest_all E s files))
         <= length (Part001.images s) + length files)%nat).
Proof.
  split.
  - induction files as [|f rest IH]; intros s.
    + simpl. split; [reflexivity | lia].
    + change (Index_ingest_all E s (f :: rest))
        with (Index_ingest_all E (Index.processImage E s (Some f)).1 rest).
      destruct (IH (Index.processImage E s (Some f)).1) as [Hpre Hlen].
      destruct (Index_processImage_images E s (Some f)) as [Heq | (x & Heq & _)];
        rewrite Heq in Hpre, Hlen.
      * split; [exact Hpre | simpl; lia].
      * split; [eapply prefix_app_l; exact Hpre|].
        rewrite length_app in Hlen. simpl in *. lia.
  - induction files as [|f rest IH]; intros s.
    + simpl. split; [reflexivity | lia].
    + change (Part001_ingest_all E s (f :: rest))
        with (Part001_ingest_all E (Part001.processImage E s (Some f)).1 rest).
      destruct (IH (Part001.processImage E s (Some f)).1) as [Hpre Hlen].
      destruct (Part001_processImage_images E s (Some f)) as [Heq | (x & Heq & _)];
        rewrite Heq in Hpre, Hlen.
      * split; [exact Hpre | simpl; lia].
      * split; [eapply prefix_app_l; exact Hpre|].
        rewrite length_app in Hlen. simpl in *. lia.
Qed.

(** ** The extension check ignores case *)

Lemma lower_dot c : Ascii.eqb (Index.lower c) "."%char = Ascii.eqb c "."%char.
Proof. destruct c as [[] [] [] [] [] [] [] []]; reflexivity. Qed.

Lemma split_dot_toLowerCase name :
  Index.split_dot (Index.toLowerCase name)
  = map Index.toLowerCase (Index.split_dot name).
Proof.
  induction name as [|c rest IH]; [reflexivity|].
  simpl. rewrite lower_dot, IH.
  destruct (Ascii.eqb c "."); [reflexivity|].
  pose proof (split_dot_nonempty rest) as Hne.
  destruct (Index.split_dot rest); [contradiction | reflexivity].
Qed.

Lemma last_map {A B} (f : A -> B) (l : list A) : last (map f l) = f <$> last l.
Proof.
  induction l as [|x l IH]; [reflexivity|].
  destruct l as [|y l]; [reflexivity|]. exact IH.
Qed.

Lemma extension_by_lower_name name :
  (piece ← last (Index.split_dot name); Some (Index.toLowerCase piece))
  = last (Index.split_dot (Index.toLowerCase name)).
Proof.
  rewrite split_dot_toLowerCase, last_map.
  destruct (last (Index.split_dot name)); reflexivity.
Qed.

(** X10.  The extension check ignores the case of the file name: two
    documents of the same declared type whose names differ only in the case
    of their letters are both taken for images or both turned away.  In both
    variants. *)
Theorem X10_extension_check_ignores_case (id id' : FileId) (mime : option string)
    (name name' : string) :
  Index.toLowerCase name = Index.toLowerCase name' ->
  Index.accepted (Index.mkDocument id mime (Some name))
  = Index.accepted (Index.mkDocument id' mime (Some name'))
  /\ Part001.accepted (Part001.mkDocument id mime (Some name))
     = Part001.accepted (Part001.mkDocument id' mime (Some name')).
Proof.
  intros Hlow.
  assert (Hi : Index.fileExt (Index.mkDocument id mime (Some name))
               = Index.fileExt (Index.mkDocument id' mime (Some name'))).
  { unfold Index.fileExt. simpl. rewrite !extension_by_lower_name, Hlow. reflexivity. }
  assert (Hp : Part001.fileExt (Part001.mkDocument id mime (Some name))
               = Part001.fileExt (Part001.mkDocument id' mime (Some name'))).
  { unfold Part001.fileExt. simpl. rewrite !extension_by_lower_name, Hlow. reflexivity. }
  unfold Index.accepted, Part001.accepted. rewrite Hi, Hp. split; reflexivity.
Qed.

Lemma X10_extension_check_ignores_case_witness :
  Index.accepted (Index.mkDocument "file_3"%string None (Some "Scan.JpEg"%string))
  = Index.accepted (Index.mkDocument "file_4"%string None (Some "SCAN.jpeg"%string))
  /\ Part001.accepted (Part001.mkDocument "file_3"%string None (Some "Scan.JpEg"%string))
     = Part001.accepted (Part001.mkDocument "file_4"%string None (Some "SCAN.jpeg"%string)).
Proof. apply X10_extension_check_ignores_case. reflexivity. Defined.

(** ** Every update is answered *)

Lemma Index_processImage_answered E s file :
  exists e, last (Index.processImage E s file).2 = Some e /\ is_answer e.
Proof.
  rewrite Index_processImage_cases.
  destruct (_ <=? _); [eexists; split; [reflexivity | exact I]|].
  destruct (file ≫= fetchFile E) as [raw|]; [|eexists; split; [reflexivity | exact I]].
  destruct (sharp_jpeg E raw); eexists; (split; [reflexivity | exact I]).
Qed.

Lemma Part001_processImage_answered E s file :
  exists e, last (Part001.processImage E s file).2 = Some e /\ is_answer e.
Proof.
  rewrite Part001_processImage_cases.
  destruct (_ <=? _); [eexists; split; [reflexivity | exact I]|].
  destruct (file ≫= fetchFile E) as [raw|]; [|eexists; split; [reflexivity | exact I]].
  destruct (sharp_jpeg E raw) as [jpg|]; [|eexists; split; [reflexivity | exact I]].
  destruct (sharp_metadata E jpg); eexists; (split; [reflexivity | exact I]).
Qed.

Lemma Index_convert_answered E s :
  exists e, last (Index.convert E s).2 = Some e /\ is_answer e.
Proof.
  destruct (Index.images s) as [|img rest] eqn:Himgs.
  { rewrite Index_convert_empty by assumption. eexists. split; [reflexivity | exact I]. }
  assert (Hne : Index.images s <> []) by (rewrite Himgs; discriminate).
  pose proof (Index_convert_cases E s Hne) as Hc.
  destruct (Index.assemble E (Index.images s)) as [[[pdf doc]|e] t].
  - simpl in Hc. destruct (replyWithDocument_ok E pdf); rewrite Hc; simpl snd;
      eexists; (split; [first [apply last_cons_snoc | apply last_cons_snoc2] | exact I]).
  - rewrite Hc. eexists. split; [apply last_cons_snoc | exact I].
Qed.

Lemma Part001_assemble_throws E imgs e :
  (Part001.assemble E imgs).1 = Throw e -> e = SizeLimitExceeded.
Proof.
  destruct (Part001_assemble_flush E imgs) as (k & _ & ->).
  pose proof (Part001_flush_fst (mkPdf (map Part001_page_of imgs) k)) as Hf.
  destruct (Part001.flush _) as [[p'|e'] t]; simpl in *; [discriminate|].
  intros [= <-]. exact Hf.
Qed.

(** /convert of part_001 answers whenever the running total stays within
    the limit. *)
Lemma Part001_convert_answered E now s :
  overflows Part001.MAX_PDF_SIZE 0 (Part001.convert E now s).2 = false ->
  exists e, last (Part001.convert E now s).2 = Some e /\ is_answer e.
Proof.
  destruct (Part001.images s) as [|img rest] eqn:Himgs.
  { rewrite Part001_convert_empty by assumption. eexists. split; [reflexivity | exact I]. }
  assert (Hne : Part001.images s <> []) by (rewrite Himgs; discriminate).
  pose proof (Part001_convert_cases E now s Hne) as Hc.
  pose proof (Part001_assembled E (Part001.images s)) as Ha.
  pose proof (Part001_assemble_throws E (Part001.images s)) as Hth.
  destruct (reply_ok E MsgCreatingPdf).
  2: { rewrite Hc. eexists. split; [reflexivity | exact I]. }
  destruct (Part001.assemble E (Part001.images s)) as [[[pdf doc]|e] t].
  - simpl in Hc. destruct (replyWithDocument_ok E pdf); rewrite Hc; simpl snd; intros _;
      eexists; (split; [first [apply last_cons_snoc | apply last_cons_snoc2] | exact I]).
  - rewrite Hc. simpl snd. intros Hov. exfalso.
    rewrite (Hth e eq_refl) in Ha. destruct Ha as [_ (t1 & c & Ht & _ & Hlt)].
    simpl in Ht. subst t. simpl in Hov.
    rewrite !overflows_app in Hov. simpl in Hov.
    apply orb_false_iff in Hov as [Hov _]. apply orb_false_iff in Hov as [_ Hov].
    apply orb_false_iff in Hov as [Hov _]. apply Z.ltb_ge in Hov. lia.
Qed.

Lemma Part001_processImage_silent E s file :
  data_chunks (Part001.processImage E s file).2 = [].
Proof.
  rewrite Part001_processImage_cases.
  destruct (_ <=? _); [reflexivity|].
  destruct (file ≫= fetchFile E) as [raw|]; [|reflexivity].
  destruct (sharp_jpeg E raw) as [jpg|]; [|reflexivity].
  destruct (sharp_metadata E jpg); reflexivity.
Qed.

(** X11.  In index.js no update that a handler takes is left without an
    answer: the last thing the handler does is a reply to the user or the
    PDF sent.  In part_001 the same holds of every update during which the
    running total of the 'data' listener stays within the limit.  The total
    can only pass the limit during a /convert, and that /convert is left
    unanswered: the last event is the uncaught exception, no failure was
    reported and no document was sent. *)
Theorem X11_updates_are_answered_within_the_limit (E : Env) :
  (forall s u, u <> Index.Other ->
     exists e, last (Index.dispatch E s u).2 = Some e /\ is_answer e)
  /\ (forall named s u, u <> Part001Table.Other ->
     overflows Part001.MAX_PDF_SIZE 0 (Part001Table.dispatch E named s u).2 = false ->
     exists e, last (Part001Table.dispatch E named s u).2 = Some e /\ is_answer e)
  /\ (forall named s u,
     overflows Part001.MAX_PDF_SIZE 0 (Part001Table.dispatch E named s u).2 = true ->
     u = Part001Table.CmdConvert
     /\ last (Part001Table.dispatch E named s u).2 = Some (EUncaught SizeLimitExceeded)
     /\ sent_documents (Part001Table.dispatch E named s u).2 = []
     /\ forall e, ~ In (EReply (MsgPdfFailed e)) (Part001Table.dispatch E named s u).2).
Proof.
  split; [|split].
  - intros s u Hu. destruct u; simpl; try (eexists; split; [reflexivity | exact I]).
    + apply Index_convert_answered.
    + apply Index_processImage_answered.
    + unfold Index.on_document. destruct (Index.accepted doc).
      * apply Index_processImage_answered.
      * eexists. split; [reflexivity | exact I].
    + contradiction.
  - intros named s u Hu. destruct u; simpl; try (eexists; split; [reflexivity | exact I]).
    + apply Part001_convert_answered.
    + intros _. apply Part001_processImage_answered.
    + intros _. unfold Part001.on_document. destruct (Part001.accepted doc).
      * apply Part001_processImage_answered.
      * eexists. split; [reflexivity | exact I].
    + contradiction.
  - intros named s u Hov.
    assert (Hu : u = Part001Table.CmdConvert).
    { destruct u; simpl in Hov; try discriminate; try reflexivity; exfalso.
      - unfold Part001.on_photo in Hov.
        rewrite overflows_silent in Hov by apply Part001_processImage_silent.
        discriminate.
      - unfold Part001.on_document in Hov. destruct (Part001.accepted doc).
        + rewrite overflows_silent in Hov by apply Part001_processImage_silent.
          discriminate.
        + discriminate. }
    subst u. simpl in *. split; [reflexivity|].
    destruct (Part001_convert_overflow E named s Hov)
      as (_ & Hsent & Hnone & t1 & c & Ht & _).
    split; [|split; assumption].
    rewrite Ht. change [EData c; EUncaught SizeLimitExceeded]
      with ([EData c] ++ [EUncaught SizeLimitExceeded]).
    rewrite app_assoc. apply last_snoc.
Qed.

(** part_001, one image whose page is over the limit: /convert ends on the
    uncaught exception *)
Lemma X11_updates_are_answered_within_the_limit_witness :
  Part001Table.CmdConvert = Part001Table.CmdConvert
  /\ last (Part001Table.dispatch (sample_env huge true) 1700000000500 Part001_one_image
             Part001Table.CmdConvert).2
     = Some (EUncaught SizeLimitExceeded)
  /\ sent_documents
       (Part001Table.dispatch (sample_env huge true) 1700000000500 Part001_one_image
          Part001Table.CmdConvert).2 = []
  /\ forall e, ~ In (EReply (MsgPdfFailed e))
                   (Part001Table.dispatch (sample_env huge true) 1700000000500
                      Part001_one_image Part001Table.CmdConvert).2.
Proof.
  apply (proj2 (proj2 (X11_updates_are_answered_within_the_limit (sample_env huge true)))
           1700000000500 Part001_one_image Part001Table.CmdConvert).
  vm_compute. reflexivity.
Defined.

(** ** Downloads *)

Lemma writer_trace_no_fetches t : Forall writer_event t -> fetches t = [].
Proof.
  induction 1 as [|e t He _ IH]; [reflexivity|].
  destruct e; simpl in *; try contradiction; assumption.
Qed.

Lemma fetches_app t1 t2 : fetches (t1 ++ t2) = fetches t1 ++ fetches t2.
Proof.
  induction t1 as [|e t1 IH]; simpl; [reflexivity|].
  destruct e; simpl; rewrite IH; reflexivity.
Qed.

Lemma Index_convert_fetches E s : fetches (Index.convert E s).2 = [].
Proof.
  destruct (Index.images s) as [|img rest] eqn:Himgs.
  { rewrite Index_convert_empty by assumption. reflexivity. }
  assert (Hne : Index.images s <> []) by (rewrite Himgs; discriminate).
  pose proof (Index_convert_cases E s Hne) as Hc.
  pose proof (Index_assembled E (Index.images s)) as [Hev _].
  destruct (Index.assemble E (Index.images s)) as [[[pdf doc]|e] t]; simpl in Hev.
  - simpl in Hc. destruct (replyWithDocument_ok E pdf); rewrite Hc; simpl;
      rewrite fetches_app, (writer_trace_no_fetches _ Hev); reflexivity.
  - rewrite Hc. simpl. rewrite fetches_app, (writer_trace_no_fetches _ Hev). reflexivity.
Qed.

Lemma Part001_convert_fetches E now s : fetches (Part001.convert E now s).2 = [].
Proof.
  destruct (Part001.images s) as [|img rest] eqn:Himgs.
  { rewrite Part001_convert_empty by assumption. reflexivity. }
  assert (Hne : Part001.images s <> []) by (rewrite Himgs; discriminate).
  pose proof (Part001_convert_cases E now s Hne) as Hc.
  pose proof (Part001_assembled E (Part001.images s)) as [Hev _].
  destruct (reply_ok E MsgCreatingPdf); [|rewrite Hc; reflexivity].
  destruct (Part001.assemble E (Part001.images s)) as [[[pdf doc]|e] t]; simpl in Hev.
  - simpl in Hc. destruct (replyWithDocument_ok E pdf); rewrite Hc; simpl;
      rewrite fetches_app, (writer_trace_no_fetches _ Hev); reflexivity.
  - rewrite Hc. simpl. rewrite fetches_app, (writer_trace_no_fetches _ Hev). reflexivity.
Qed.

Lemma Index_processImage_fetches E s file :
  fetches (Index.processImage E s file).2 = []
  \/ fetches (Index.processImage E s file).2 = [file].
Proof.
  rewrite Index_processImage_cases.
  destruct (_ <=? _); [left; reflexivity|].
  destruct (file ≫= fetchFile E) as [raw|]; [|right; reflexivity].
  destruct (sharp_jpeg E raw); right; reflexivity.
Qed.

Lemma Part001_processImage_fetches E s file :
  fetches (Part001.processImage E s file).2 = []
  \/ fetches (Part001.processImage E s file).2 = [file].
Proof.
  rewrite Part001_processImage_cases.
  destruct (_ <=? _); [left; reflexivity|].
  destruct (file ≫= fetchFile E) as [raw|]; [|right; reflexivity].
  destruct (sharp_jpeg E raw) as [jpg|]; [|right; reflexivity].
  destruct (sharp_metadata E jpg); right; reflexivity.
Qed.

(** X12.  An update makes the bot download at most one file: for a photo
    the last of the sizes Telegram lists, for a document the document, and
    nothing at all for a command, /convert included.  In both variants. *)
Theorem X12_one_download_per_image_update (E : Env) :
  (forall s u,
     match u with
     | Index.MsgPhoto photo =>
         fetches (Index.dispatch E s u).2 = []
         \/ fetches (Index.dispatch E s u).2 = [last photo]
     | Index.MsgDocument doc =>
         fetches (Index.dispatch E s u).2 = []
         \/ fetches (Index.dispatch E s u).2 = [Some (Index.file_id doc)]
     | _ => fetches (Index.dispatch E s u).2 = []
     end)
  /\ (forall named s u,
     match u with
     | Part001Table.MsgPhoto photo =>
         fetches (Part001Table.dispatch E named s u).2 = []
         \/ fetches (Part001Table.dispatch E named s u).2 = [last photo]
     | Part001Table.MsgDocument doc =>
         fetches (Part001Table.dispatch E named s u).2 = []
         \/ fetches (Part001Table.dispatch E named s u).2 = [Some (Part001.file_id doc)]
     | _ => fetches (Part001Table.dispatch E named s u).2 = []
     end).
Proof.
  split.
  - intros s u. destruct u; simpl; try reflexivity.
    + apply Index_convert_fetches.
    + apply Index_processImage_fetches.
    + unfold Index.on_document. destruct (Index.accepted doc); [|left; reflexivity].
      apply Index_processImage_fetches.
  - intros named s u. destruct u; simpl; try reflexivity.
    + apply Part001_convert_fetches.
    + apply Part001_processImage_fetches.
    + unfold Part001.on_document. destruct (Part001.accepted doc); [|left; reflexivity].
      apply Part001_processImage_fetches.
Qed.

(** ** part_001: a session expires at its owner's next update *)

(** X13.  In part_001 a session last stamped more than a day ago is thrown
    away when its owner's next update arrives, whatever that update is: the
    update is answered that the session expired, no handler runs, and the
    images are gone.  The update after that starts from an empty session, so
    a /convert is then answered with the no-images reply alone. *)
Theorem X13_stale_session_dropped_at_next_update (E : Env)
    (now stamp named userId t0 : Z) (u : Part001Table.Update)
    (m : gmap Z Part001.Session) (s : Part001.Session) :
  m !! userId = Some s ->
  Part001.timestamp s = Some t0 ->
  t0 <> 0 ->
  Part001Table.SESSION_MAX_AGE < now - t0 ->
  Part001Table.handleUpdate E now stamp named userId u m
  = (delete userId m, Part001Table.SessionExpired)
  /\ forall E' now' stamp' named',
       Part001Table.handleUpdate E' now' stamp' named' userId Part001Table.CmdConvert
         (delete userId m)
       = (<[userId := Part001.mkSession [] (Some stamp')]> (delete userId m),
          Part001Table.Handled [EReply MsgNoImages]).
Proof.
  intros Hs Hts Hnz Hold. split.
  - unfold Part001Table.handleUpdate. rewrite Hs. simpl.
    unfold Part001Table.stale. rewrite Hts.
    apply Z.eqb_neq in Hnz. apply Z.ltb_lt in Hold. rewrite Hnz, Hold. reflexivity.
  - intros E' now' stamp' named'. unfold Part001Table.handleUpdate.
    rewrite lookup_delete_eq. reflexivity.
Qed.

Lemma X13_stale_session_dropped_at_next_update_witness :
  Part001Table.handleUpdate (sample_env 1000 true) 1700086400001 1700086400002
    1700086400003 42 Part001Table.CmdConvert Part001_idle_table
  = (delete 42 Part001_idle_table, Part001Table.SessionExpired)
  /\ forall E' now' stamp' named',
       Part001Table.handleUpdate E' now' stamp' named' 42 Part001Table.CmdConvert
         (delete 42 Part001_idle_table)
       = (<[42 := Part001.mkSession [] (Some stamp')]> (delete 42 Part001_idle_table),
          Part001Table.Handled [EReply MsgNoImages]).
Proof.
  apply (X13_stale_session_dropped_at_next_update (sample_env 1000 true)
           1700086400001 1700086400002 1700086400003 42 1700000000000
           Part001Table.CmdConvert Part001_idle_table Part001_one_image).
  - vm_compute. reflexivity.
  - reflexivity.
  - discriminate.
  - vm_compute. reflexivity.
Defined.

(** ** What the listener lets through *)

Lemma chunks_length_nonneg l : 0 <= chunks_length l.
Proof.
  induction l as [|c l IH]; simpl; [lia|].
  unfold Buffer_length at 1. lia.
Qed.

(** X14.  The 'data' listener lets a run of chunks through exactly when the
    total, with what it had counted before, does not exceed the limit; a
    total equal to the limit passes.  What it then holds are the chunks it
    held followed by the new ones, in order, and their exact count. *)
Theorem X14_listener_accepts_up_to_the_limit (limit : Z) (chunks : list Buffer) (k : Sink) :
  totalSize k <= limit ->
  ((exists k', (deliver (data_listener limit) chunks k).1 = Ok k')
   <-> totalSize k + chunks_length chunks <= limit)
  /\ (forall k', (deliver (data_listener limit) chunks k).1 = Ok k' ->
       buffers k' = buffers k ++ chunks
       /\ totalSize k' = totalSize k + chunks_length chunks).
Proof.
  revert k. induction chunks as [|c cs IH]; intros k Hk.
  - simpl. split.
    + split; [intros _; lia | intros _; eexists; reflexivity].
    + intros k' [= <-]. rewrite app_nil_r. split; [reflexivity | lia].
  - change (deliver (data_listener limit) (c :: cs) k)
      with (k1 ← data_listener limit c k; deliver (data_listener limit) cs k1).
    pose proof (chunks_length_nonneg cs) as Hnn.
    change (chunks_length (c :: cs)) with (Buffer_length c + chunks_length cs).
    assert (Hstep : (data_listener limit c k).1
              = if limit <? totalSize k + Buffer_length c then Throw SizeLimitExceeded
                else Ok (mkSink (buffers k ++ [c]) (totalSize k + Buffer_length c))).
    { unfold data_listener, emit. run_handler.
      destruct (limit <? totalSize k + Buffer_length c); reflexivity. }
    destruct (limit <? totalSize k + Buffer_length c) eqn:Hlt.
    + rewrite (bind_fst_throw _ _ _ Hstep). apply Z.ltb_lt in Hlt. split.
      * split; [intros [k' [=]] | intros H; exfalso; lia].
      * intros k' [=].
    + rewrite (bind_fst_ok _ _ _ Hstep). apply Z.ltb_ge in Hlt.
      destruct (IH (mkSink (buffers k ++ [c]) (totalSize k + Buffer_length c)) Hlt)
        as [Hiff Hok].
      simpl buffers in *. simpl totalSize in *. split.
      * rewrite Hiff. lia.
      * intros k' Hk'. destruct (Hok k' Hk') as [-> ->].
        rewrite <- app_assoc. split; [reflexivity | lia].
Qed.

(** a single chunk of exactly 50 MiB passes the listener of index.js *)
Lemma X14_listener_accepts_up_to_the_limit_witness :
  ((exists k', (deliver (data_listener Index.MAX_PDF_SIZE)
                  [Buffer_alloc 52428800 Byte.x00] (mkSink [] 0)).1 = Ok k')
   <-> totalSize (mkSink [] 0) + chunks_length [Buffer_alloc 52428800 Byte.x00]
       <= Index.MAX_PDF_SIZE)
  /\ (forall k', (deliver (data_listener Index.MAX_PDF_SIZE)
                    [Buffer_alloc 52428800 Byte.x00] (mkSink [] 0)).1 = Ok k' ->
       buffers k' = buffers (mkSink [] 0) ++ [Buffer_alloc 52428800 Byte.x00]
       /\ totalSize k'
          = totalSize (mkSink [] 0) + chunks_length [Buffer_alloc 52428800 Byte.x00]).
Proof.
  apply X14_listener_accepts_up_to_the_limit. vm_compute. discriminate.
Defined.

(** ** The counts announced during a batch *)

Lemma added_counts_app t1 t2 : added_counts (t1 ++ t2) = added_counts t1 ++ added_counts t2.
Proof.
  induction t1 as [|e t1 IH]; simpl; [reflexivity|].
  destruct e as [[]| | | | |]; simpl; rewrite IH; reflexivity.
Qed.

(** X15.  While a batch of files that all download and normalize fits in
    the session, index.js announces each image with the count the session
    has reached: the counts are consecutive and start right after the number
    of images the session held (1, 2, ..., n for a fresh session). *)
Theorem X15_batch_announces_consecutive_counts (E : Env) (files : list FileId) :
  forall (s : Index.Session) (imgs : list Buffer),
  mapM (Index_normalized E) files = Some imgs ->
  len (Index.images s) + len files <= Index.MAX_IMAGES_PER_USER ->
  added_counts (Index_ingest_all_trace E s files)
  = map (fun i => len (Index.images s) + Z.of_nat i) (seq 1 (length files)).
Proof.
  induction files as [|f rest IH]; intros s imgs Hm Hlen; [reflexivity|].
  rewrite mapM_cons_eq in Hm.
  destruct (Index_normalized E f) as [img|] eqn:Hf; [|discriminate]. simpl in Hm.
  destruct (mapM (Index_normalized E) rest) as [imgs'|] eqn:Hrest; [|discriminate].
  assert (Hstep : Index.processImage E s (Some f)
            = (Index.set_images s (Index.images s ++ [img]),
               [EReply MsgProcessing; EFetch (Some f);
                EDecode (default img (fetchFile E f));
                EReply (MsgImageAdded (len (Index.images s ++ [img]))
                                      Index.MAX_IMAGES_PER_USER)])).
  { rewrite Index_processImage_cases.
    assert (Hroom : (Index.MAX_IMAGES_PER_USER <=? len (Index.images s)) = false).
    { apply Z.leb_gt. unfold len in *. simpl length in Hlen. lia. }
    rewrite Hroom. unfold Index_normalized in Hf. simpl.
    destruct (fetchFile E f) as [raw|]; [|discriminate]. simpl in Hf.
    rewrite Hf. reflexivity. }
  change (Index_ingest_all_trace E s (f :: rest))
    with ((Index.processImage E s (Some f)).2
          ++ Index_ingest_all_trace E (Index.processImage E s (Some f)).1 rest).
  rewrite Hstep. simpl fst. simpl snd.
  rewrite added_counts_app, (IH _ imgs' eq_refl).
  - simpl added_counts. simpl length. simpl seq. simpl map. cbn [app].
    f_equal.
    + unfold len. rewrite length_app. change (length [img]) with 1%nat. lia.
    + rewrite <- (seq_shift (length rest) 1), map_map. apply map_ext. intros i.
      unfold len. rewrite length_app. change (length [img]) with 1%nat. lia.
  - simpl. unfold len in *. rewrite length_app. simpl length in *. lia.
Qed.

(** three photos into a fresh session: 1, 2, 3 *)
Lemma X15_batch_announces_consecutive_counts_witness :
  added_counts (Index_ingest_all_trace (sample_env 1000 true) Index_empty
                  ["photo_1"; "photo_2"; "photo_3"]%string)
  = map (fun i => len (Index.images Index_empty) + Z.of_nat i)
        (seq 1 (length ["photo_1"; "photo_2"; "photo_3"]%string)).
Proof.
  apply (X15_batch_announces_consecutive_counts (sample_env 1000 true)
           ["photo_1"; "photo_2"; "photo_3"]%string Index_empty
           [sample_jpeg; sample_jpeg; sample_jpeg]).
  - reflexivity.
  - vm_compute. discriminate.
Defined.
